(** * Ladruno: discovery and submission of simulation runs

    A shallow embedding of [src/Ladruno/core/model.py]: the [SlurmDefaults]
    bundle, the [Model] class with its discovery ([_collect_runs]), job-name
    derivation ([_auto_job_name]) and orchestration ([submit]).

    Conventions of the embedding.
    - A [pathlib.Path] is the list of its components below the anchor [/];
      all paths are absolute and normalised, as [Path.resolve()] returns them.
    - A Python [str] is a Rocq [string], a sequence of bytes (UTF-8); Python
      compares strings by code point, which on UTF-8 is the byte order.
    - The file system is a tree of regular files and directories (no symbolic
      links); a directory lists its entries in enumeration order, the order
      [os.scandir] would report them in.
    - Exceptions are values of [exn]; effectful code lives in a state and
      error monad over the state of the outside world. *)

From Stdlib Require Import String Ascii List ZArith Sorted Permutation.
From stdpp Require Import base list sorting strings.

Set Warnings "-register-all".

Local Open Scope string_scope.
Local Open Scope list_scope.

(** ** Exceptions *)

Inductive exn : Type :=
| FileNotFoundError (msg : string)
| ValueError
| Raised (cls msg : string).

(** ** Lexicographic comparison, as Python compares sequences *)

Section Lex.
Context {A : Type} (cmp : A -> A -> comparison).

Fixpoint lex_compare (a b : list A) : comparison :=
  match a, b with
  | [], [] => Eq
  | [], _ :: _ => Lt
  | _ :: _, [] => Gt
  | x :: a', y :: b' =>
      match cmp x y with
      | Eq => lex_compare a' b'
      | Lt => Lt
      | Gt => Gt
      end
  end.
End Lex.

(** ** Paths *)

Abbreviation Path := (list string) (only parsing).

(** [str(p)] *)
Definition Path_str (p : Path) : string :=
  match p with
  | [] => "/"
  | _ => foldr (fun c acc => "/" +:+ c +:+ acc) "" p
  end.

(** [p / name] *)
Definition Path_div (p : Path) (name : string) : Path := p ++ [name].

(** [p.parent]; the parent of the anchor is the anchor *)
Definition Path_parent (p : Path) : Path := removelast p.

(** [p.name]; the anchor has the empty name *)
Definition Path_name (p : Path) : string := List.last p "".

(** [p.parts] without the anchor, which is what a relative path has *)
Definition Path_parts (p : Path) : list string := p.

(** [p < q]: pathlib compares the lists of components *)
Definition Path_compare (p q : Path) : comparison :=
  lex_compare String.compare p q.

Definition Path_lt (p q : Path) : bool :=
  match Path_compare p q with Lt => true | _ => false end.

(** [p.relative_to(other)]: raises [ValueError] unless [other] is a prefix *)
Fixpoint relative_to (p other : Path) : exn + Path :=
  match other, p with
  | [], _ => inr p
  | o :: other', c :: p' =>
      if String.eqb o c then relative_to p' other' else inl ValueError
  | _ :: _, [] => inl ValueError
  end.

(** Splitting a string at every [/] *)
Fixpoint split_sep (s : string) : list string :=
  match s with
  | EmptyString => [""]
  | String c s' =>
      if Ascii.eqb c "/" then "" :: split_sep s'
      else match split_sep s' with
           | h :: t => String c h :: t
           | [] => [String c ""]
           end
  end.

(** [Path(s)]: empty components and [.] components are dropped. The
    string is read from the anchor: the working directory, against which
    a relative path would be resolved, is not part of the model. *)
Definition Path_of_str (s : string) : Path :=
  filter (fun c => c <> "" /\ c <> ".") (split_sep s).

(** [p.resolve()]: on a file system without symbolic links only the [..]
    components are left to collapse *)
Definition resolve (p : Path) : Path :=
  fold_left (fun acc c => if String.eqb c ".." then removelast acc else acc ++ [c])
            p [].

(** ** The file system *)

Inductive node : Type :=
| File
| Dir (entries : list (string * node)).

(** The entry called [name] of a directory listing *)
Fixpoint entry (name : string) (es : list (string * node)) : option node :=
  match es with
  | [] => None
  | (nm, n) :: es' => if String.eqb nm name then Some n else entry name es'
  end.

(** What lives at the path [p] below the node [n] *)
Fixpoint stat (n : node) (p : Path) : option node :=
  match p with
  | [] => Some n
  | c :: p' =>
      match n with
      | File => None
      | Dir es =>
          match entry c es with
          | Some n' => stat n' p'
          | None => None
          end
      end
  end.

(** [p.exists()]: any kind of entry counts *)
Definition exists_ (fs : node) (p : Path) : bool :=
  match stat fs p with Some _ => true | None => false end.

(** The matches of [**/name] from the directory [n], which lives at [p]:
    the directory itself is tried first, then every sub-directory in
    enumeration order. Nothing is selected from what is not a directory. *)
Fixpoint select_from (name : string) (n : node) (p : Path) : list Path :=
  match n with
  | File => []
  | Dir es =>
      (match entry name es with
       | Some _ => [Path_div p name]
       | None => []
       end)
      ++ flat_map (fun e => select_from name (snd e) (Path_div p (fst e))) es
  end.

(** [p.rglob(name)] *)
Definition rglob (fs : node) (p : Path) (name : string) : list Path :=
  match stat fs p with
  | Some n => select_from name n p
  | None => []
  end.

(** [sorted(paths)]: a stable sort that asks only for [<] *)
Definition Path_le (p q : Path) : Prop := Path_lt q p = false.

#[global] Instance Path_le_dec (p q : Path) : Decision (Path_le p q).
Proof. unfold Path_le. apply _. Defined.

Definition sorted (l : list Path) : list Path := merge_sort Path_le l.

(** ** Default configuration and run units *)

Record SlurmDefaults : Type := mkSlurmDefaults {
  number_of_nodes : Z;
  max_nodes : Z;
  max_tasks_per_node : Z;
  opensees_exe : string;
  archive_destination : string;
  verbose : bool
}.

Definition SlurmDefaults_default : SlurmDefaults :=
  {| number_of_nodes := 1;
     max_nodes := 18;
     max_tasks_per_node := 32;
     opensees_exe := "/mnt/nfshare/bin/openseesmp-26062025";
     archive_destination := "/mnt/krakenschest/home/nmorabowen";
     verbose := false |}.

(** The keyword arguments [_make_run] constructs a [Run] with. *)
Record Run : Type := mkRun {
  folder_path : string;
  run_number_of_nodes : Z;
  run_max_nodes : Z;
  run_max_tasks_per_node : Z;
  run_verbose : bool;
  run_opensees_exe : string;
  run_archive_destination : string
}.

(** Modelled from the spec: the [path] attribute of a Run Unit, its folder
    path. The class [Run] of [Ladruno.engine.run] is not part of this file;
    the attribute is taken to hold the folder the unit was built with. *)
Definition Run_path (r : Run) : string := folder_path r.

Record Model : Type := mkModel {
  path : Path;
  defaults : SlurmDefaults;
  runs : list Run
}.

(** ** Discovery *)

Definition _make_run (d : SlurmDefaults) (run_folder : Path) : Run :=
  {| folder_path := Path_str run_folder;
     run_number_of_nodes := number_of_nodes d;
     run_max_nodes := max_nodes d;
     run_max_tasks_per_node := max_tasks_per_node d;
     run_verbose := verbose d;
     run_opensees_exe := opensees_exe d;
     run_archive_destination := archive_destination d |}.

Definition _collect_runs (fs : node) (self_path : Path) (d : SlurmDefaults)
    (tcl_name : string) : list Run :=
  let root_tcl := Path_div self_path tcl_name in
  if exists_ fs root_tcl then [_make_run d self_path]
  else
    let tcl_files := sorted (rglob fs self_path tcl_name) in
    map (fun tcl_path => _make_run d (Path_parent tcl_path)) tcl_files.

(** [Model(path, defaults=d)], from the resolved root on. *)
Definition Model_init (fs : node) (p : Path) (d : SlurmDefaults) : exn + Model :=
  let rs := _collect_runs fs p d "main.tcl" in
  match rs with
  | [] => inl (FileNotFoundError ("No main.tcl found in: " +:+ Path_str p))
  | _ => inr {| path := p; defaults := d; runs := rs |}
  end.

(** ** Job names *)

Definition _auto_job_name (self : Model) (run : Run) : exn + string :=
  let run_path := resolve (Path_of_str (Run_path run)) in
  match relative_to run_path (path self) with
  | inl e => inl e
  | inr rel =>
      let name := String.concat "_" (Path_parts rel) in
      inr (if String.eqb name "" then Path_name (path self) else name)
  end.

(** ** Orchestration *)

(** The keyword arguments of [submit]; [J] is the type of [job_name]:
    [option string] for [Model.submit], [string] once resolved for
    [Run.submit]. *)
Record kwargs (J : Type) : Type := mkKwargs {
  archive : bool;
  fix_ : bool;
  rebuild : bool;
  job_name : J;
  nodes : option Z;
  ntasks : option Z;
  ntasks_per_node : option Z;
  exclude : option (list string);
  tcl_file : string;
  monitor_ram : bool;
  monitor_interval : Z;
  log_file : string
}.

Arguments mkKwargs {J}.
Arguments archive {J}.
Arguments fix_ {J}.
Arguments rebuild {J}.
Arguments job_name {J}.
Arguments nodes {J}.
Arguments ntasks {J}.
Arguments ntasks_per_node {J}.
Arguments exclude {J}.
Arguments tcl_file {J}.
Arguments monitor_ram {J}.
Arguments monitor_interval {J}.
Arguments log_file {J}.

(** The defaults of [Model.submit] *)
Definition submit_defaults : kwargs (option string) :=
  {| archive := false; fix_ := true; rebuild := true; job_name := None;
     nodes := None; ntasks := None; ntasks_per_node := None; exclude := None;
     tcl_file := "main.tcl"; monitor_ram := false; monitor_interval := 30;
     log_file := "memtrack_node.txt" |}.

(** The arguments [submit] hands to [Run.submit]: its own, with the
    resolved job name. *)
Definition forward (a : kwargs (option string)) (resolved_job_name : string)
    : kwargs string :=
  {| archive := archive a; fix_ := fix_ a; rebuild := rebuild a;
     job_name := resolved_job_name;
     nodes := nodes a; ntasks := ntasks a;
     ntasks_per_node := ntasks_per_node a; exclude := exclude a;
     tcl_file := tcl_file a; monitor_ram := monitor_ram a;
     monitor_interval := monitor_interval a; log_file := log_file a |}.

(** What the printing helpers write, one value per [print]; the layout
    of the text is left out. *)
Inductive printed : Type :=
| Header (n : nat)
| Progress (i total : nat) (run : Run)
| Footer (total : nat)
| Slogan.

Section Orchestration.

(** The outside world of [Run.submit] (scheduler, archive, input files)
    and the operation itself: an identifier or an exception, and the
    world after the call. *)
Variable W : Type.
Variable Run_submit : Run -> kwargs string -> W -> (exn + string) * W.

(** [calls] is the trace of the calls made to [Run.submit]. *)
Record state : Type := mkState {
  world : W;
  stdout : list printed;
  calls : list (Run * kwargs string)
}.

Definition M (A : Type) : Type := state -> (exn + A) * state.

Definition ret {A} (a : A) : M A := fun s => (inr a, s).

Definition bind {A B} (m : M A) (f : A -> M B) : M B :=
  fun s =>
    match m s with
    | (inl e, s') => (inl e, s')
    | (inr a, s') => f a s'
    end.

Definition lift {A} (r : exn + A) : M A := fun s => (r, s).

Notation "'let!' x ':=' m 'in' f" := (bind m (fun x => f))
  (at level 10, x pattern, m at level 100, f at level 200, only parsing).

Definition print (x : printed) : M unit :=
  fun s => (inr tt, {| world := world s;
                       stdout := stdout s ++ [x];
                       calls := calls s |}).

(** The call of the submission operation of [run] with arguments [kw] *)
Definition call_submit (run : Run) (kw : kwargs string) : M string :=
  fun s =>
    let (r, w') := Run_submit run kw (world s) in
    (r, {| world := w'; stdout := stdout s;
           calls := calls s ++ [(run, kw)] |}).

Definition _print_header (self : Model) : M unit :=
  if verbose (defaults self) then print (Header (length (runs self)))
  else ret tt.

Definition _print_run_progress (self : Model) (i total : nat) (run : Run)
    : M unit :=
  if verbose (defaults self) then print (Progress i total run) else ret tt.

Definition _print_footer (self : Model) (total : nat) : M unit :=
  if verbose (defaults self) then
    let! _ := print (Footer total) in
    print Slogan
  else ret tt.

(** [job_name or self._auto_job_name(run)]: [None] and the empty string
    are false, and the right operand is evaluated only then. *)
Definition resolved_job_name (self : Model) (job_name : option string)
    (run : Run) : exn + string :=
  match job_name with
  | Some s => if String.eqb s "" then _auto_job_name self run else inr s
  | None => _auto_job_name self run
  end.

(** The [for] loop of [submit], from the unit of index [idx] on. *)
Fixpoint submit_loop (self : Model) (a : kwargs (option string))
    (idx : nat) (rs : list Run) (job_ids : list string) : M (list string) :=
  match rs with
  | [] => ret job_ids
  | run :: rs' =>
      let! _ := _print_run_progress self idx (length (runs self)) run in
      let! name := lift (resolved_job_name self (job_name a) run) in
      let! job_id := call_submit run (forward a name) in
      submit_loop self a (S idx) rs' (job_ids ++ [job_id])
  end.

Definition submit (self : Model) (a : kwargs (option string))
    : M (list string) :=
  let! _ := _print_header self in
  let! job_ids := submit_loop self a 1 (runs self) [] in
  let! _ := _print_footer self (length job_ids) in
  ret job_ids.

(** *** Vocabulary of the properties *)

(** The call [c] is the submission of [run] with the arguments of
    [submit] and the job name resolved for [run]. *)
Definition forwarded (self : Model) (a : kwargs (option string))
    (run : Run) (c : Run * kwargs string) : Prop :=
  fst c = run
  /\ exists name,
       resolved_job_name self (job_name a) run = inr name
       /\ snd c = forward a name.

(** Submitting the units [rs] one after the other from the world [w]
    succeeds for each of them, returns the identifiers [ids] in turn and
    leaves the world [w']. *)
Inductive submits_ok (self : Model) (a : kwargs (option string))
    : list Run -> W -> list string -> W -> Prop :=
| submits_ok_nil w : submits_ok self a [] w [] w
| submits_ok_cons run rs w name job_id w1 ids w2 :
    resolved_job_name self (job_name a) run = inr name ->
    Run_submit run (forward a name) w = (inr job_id, w1) ->
    submits_ok self a rs w1 ids w2 ->
    submits_ok self a (run :: rs) w (job_id :: ids) w2.

(** The state after the progress line of a unit, and after the header. *)
Definition after_progress (self : Model) (idx : nat) (run : Run)
    (s : state) : state :=
  snd (_print_run_progress self idx (length (runs self)) run s).

Definition after_header (self : Model) (s : state) : state :=
  snd (_print_header self s).

(** The calls made to [Run.submit] between the states [s] and [s']. *)
Definition new_calls (s s' : state) : list (Run * kwargs string) :=
  drop (length (calls s)) (calls s').

End Orchestration.

Arguments world {W}.
Arguments stdout {W}.
Arguments calls {W}.
Arguments mkState {W}.
Arguments submit {W}.
Arguments submit_loop {W}.
Arguments call_submit {W}.
Arguments new_calls {W}.
Arguments after_progress {W}.
Arguments after_header {W}.
Arguments submits_ok {W}.

(** [self] with the verbosity flag of its defaults set to [b]. *)
Definition set_verbose (b : bool) (self : Model) : Model :=
  {| path := path self;
     defaults :=
       {| number_of_nodes := number_of_nodes (defaults self);
          max_nodes := max_nodes (defaults self);
          max_tasks_per_node := max_tasks_per_node (defaults self);
          opensees_exe := opensees_exe (defaults self);
          archive_destination := archive_destination (defaults self);
          verbose := b |};
     runs := runs self |}.

(** The arguments [a] with [tcl_file] set to [t]. *)
Definition set_tcl_file {J} (t : string) (a : kwargs J) : kwargs J :=
  {| archive := archive a; fix_ := fix_ a; rebuild := rebuild a;
     job_name := job_name a;
     nodes := nodes a; ntasks := ntasks a;
     ntasks_per_node := ntasks_per_node a; exclude := exclude a;
     tcl_file := t; monitor_ram := monitor_ram a;
     monitor_interval := monitor_interval a; log_file := log_file a |}.

(** ** Vocabulary of the properties *)

(** The entries of every directory have pairwise distinct names. *)
Fixpoint distinct_names (n : node) : bool :=
  match n with
  | File => true
  | Dir es =>
      bool_decide (NoDup (map fst es))
      && forallb (fun e => distinct_names (snd e)) es
  end.

(** The number of entries called [name] in the tree [n], at any depth. *)
Fixpoint count_markers (name : string) (n : node) : nat :=
  match n with
  | File => 0
  | Dir es =>
      length (filter (fun e => fst e = name) es)
      + list_sum (map (fun e => count_markers name (snd e)) es)
  end.

(** The number of entries called [name] at or below the directory [p]. *)
Definition markers_below (fs : node) (p : Path) (name : string) : nat :=
  match stat fs p with
  | Some n => count_markers name n
  | None => 0
  end.

(** The same tree, with the entries of its directories enumerated in
    another order. *)
Inductive reordered : node -> node -> Prop :=
| reordered_File : reordered File File
| reordered_Dir es es' es'' :
    Forall2 (fun e e' => fst e = fst e' /\ reordered (snd e) (snd e')) es es' ->
    es' ≡ₚ es'' ->
    reordered (Dir es) (Dir es'').

(** The folders discovered below a root that is no run folder itself. *)
Definition found_folders (fs : node) (root : Path) (name : string)
    : list Path :=
  map Path_parent (sorted (rglob fs root name)).

(** A name a directory entry can have: not empty, not [.] or [..], and
    without a [/]. *)
Definition proper_name (c : string) : bool :=
  negb (String.eqb c "") && negb (String.eqb c ".")
  && negb (String.eqb c "..")
  && forallb (fun ch => negb (Ascii.eqb ch "/")) (list_ascii_of_string c).

Definition proper_path (p : Path) : bool := forallb proper_name p.

Fixpoint proper_names (n : node) : bool :=
  match n with
  | File => true
  | Dir es => forallb (fun e => proper_name (fst e) && proper_names (snd e)) es
  end.

(** The reading of the ordering by the strings of the folders: the units
    of the Model built come in ascending order of [folder_path]. *)
Definition discovers_in_string_order (fs : node) (root : Path)
    (d : SlurmDefaults) : Prop :=
  forall m,
    Model_init fs root d = inr m ->
    Sorted (fun r1 r2 => String.leb (folder_path r1) (folder_path r2) = true)
           (runs m).

(** The reading of the override as it is written: whatever name the caller
    gives is the name every unit is submitted with. *)
Definition override_always_forwarded {W : Type}
    (Run_submit : Run -> kwargs string -> W -> (exn + string) * W)
    (self : Model) (a : kwargs (option string)) (s : state W) : Prop :=
  forall run kw name,
    (run, kw) ∈ new_calls s (snd (submit Run_submit self a s)) ->
    job_name a = Some name ->
    job_name kw = name.

(** ** Examples *)

(** [/exp/main.tcl], with a second marker deeper down. *)
Definition fs_exp : node :=
  Dir [("exp", Dir [("main.tcl", File);
                    ("sub", Dir [("main.tcl", File)])])].

(** [/batch/x/main.tcl], [/batch/y/main.tcl] and [/batch/z/main.tcl],
    enumerated in another order. *)
Definition fs_batch : node :=
  Dir [("batch", Dir [("z", Dir [("main.tcl", File)]);
                      ("x", Dir [("main.tcl", File)]);
                      ("notes.txt", File);
                      ("y", Dir [("main.tcl", File); ("out", Dir [])])])].

(** The same, as another enumeration would list it. *)
Definition fs_batch_listed : node :=
  Dir [("batch", Dir [("x", Dir [("main.tcl", File)]);
                      ("z", Dir [("main.tcl", File)]);
                      ("notes.txt", File);
                      ("y", Dir [("out", Dir []); ("main.tcl", File)])])].

(** [/sweep/a/x/main.tcl] and [/sweep/a-b/main.tcl]. *)
Definition fs_sweep : node :=
  Dir [("sweep", Dir [("a", Dir [("x", Dir [("main.tcl", File)])]);
                      ("a-b", Dir [("main.tcl", File)])])].

(** Directories called [main.tcl]: [/d/main.tcl/] and [/e/run/main.tcl/]. *)
Definition fs_dirs : node :=
  Dir [("d", Dir [("main.tcl", Dir [])]);
       ("e", Dir [("run", Dir [("main.tcl", Dir [("log", File)])])])].

(** A directory without any marker. *)
Definition fs_empty : node :=
  Dir [("void", Dir [("readme", File); ("data", Dir [])])].

(** A scheduler that counts the jobs it accepted, names a job after its
    job name, and rejects the run folder [bad]. *)
Definition scheduler (bad : string) (run : Run) (kw : kwargs string)
    (w : nat) : (exn + string) * nat :=
  if String.eqb (folder_path run) bad
  then (inl (Raised "RuntimeError" "sbatch failed"), w)
  else (inr ("job-" +:+ job_name kw), S w).

Definition state0 : state nat := {| world := 0; stdout := []; calls := [] |}.

Definition model_of (fs : node) (root : Path) : Model :=
  {| path := root; defaults := SlurmDefaults_default;
     runs := _collect_runs fs root SlurmDefaults_default "main.tcl" |}.

(** The arguments of [submit] with the job name [name]. *)
Definition set_job_name {J K} (name : K) (a : kwargs J) : kwargs K :=
  {| archive := archive a; fix_ := fix_ a; rebuild := rebuild a;
     job_name := name;
     nodes := nodes a; ntasks := ntasks a;
     ntasks_per_node := ntasks_per_node a; exclude := exclude a;
     tcl_file := tcl_file a; monitor_ram := monitor_ram a;
     monitor_interval := monitor_interval a; log_file := log_file a |}.

(** ** Vocabulary of the further properties *)

(** Without an underscore. *)
Definition underscore_free (c : string) : bool :=
  forallb (fun ch => negb (Ascii.eqb ch "_")) (list_ascii_of_string c).

(** Every entry name of the tree passes the test [Q]. *)
Fixpoint names_all (Q : string -> bool) (n : node) : bool :=
  match n with
  | File => true
  | Dir es => forallb (fun e => Q (fst e) && names_all Q (snd e)) es
  end.

(** [/c/a_b/main.tcl] and [/c/a/b/main.tcl]. *)
Definition fs_underscore : node :=
  Dir [("c", Dir [("a_b", Dir [("main.tcl", File)]);
                  ("a", Dir [("b", Dir [("main.tcl", File)])])])].

(** A Model whose second unit was built for a folder outside its root. *)
Definition model_astray : Model :=
  {| path := ["batch"]; defaults := SlurmDefaults_default;
     runs := [_make_run SlurmDefaults_default ["batch"; "x"];
              _make_run SlurmDefaults_default ["elsewhere"; "y"];
              _make_run SlurmDefaults_default ["batch"; "z"]] |}.

(** The progress lines of the units [rs], numbered from [idx] on. *)
Fixpoint progress_lines (total idx : nat) (rs : list Run) : list printed :=
  match rs with
  | [] => []
  | run :: rs' => Progress idx total run :: progress_lines total (S idx) rs'
  end.

(** A scheduler that accepts every job. *)
Definition scheduler_accepting (run : Run) (kw : kwargs string) (w : nat)
    : (exn + string) * nat :=
  (inr ("job-" +:+ job_name kw), S w).

(** * Properties *)

(** ** The order on paths *)

Section LexTheory.
Context {A : Type} (cmp : A -> A -> comparison).
Hypothesis cmp_eq : forall x y, cmp x y = Eq -> x = y.
Hypothesis cmp_refl : forall x, cmp x x = Eq.
Hypothesis cmp_antisym : forall x y, cmp x y = CompOpp (cmp y x).
Hypothesis cmp_trans :
  forall x y z, cmp x y = Lt -> cmp y z = Lt -> cmp x z = Lt.

Lemma lex_compare_eq a b : lex_compare cmp a b = Eq -> a = b.
Proof.
  revert b; induction a as [|x a IH]; intros [|y b]; simpl; try discriminate.
  - reflexivity.
  - destruct (cmp x y) eqn:Hxy; try discriminate.
    intros H. apply cmp_eq in Hxy. apply IH in H. congruence.
Qed.

Lemma lex_compare_refl a : lex_compare cmp a a = Eq.
Proof. induction a as [|x a IH]; simpl; [|rewrite cmp_refl]; auto. Qed.

Lemma lex_compare_antisym a b :
  lex_compare cmp a b = CompOpp (lex_compare cmp b a).
Proof.
  revert b; induction a as [|x a IH]; intros [|y b]; simpl; auto.
  rewrite (cmp_antisym x y). destruct (cmp y x); simpl; auto.
Qed.

Lemma lex_compare_trans a b c :
  lex_compare cmp a b = Lt -> lex_compare cmp b c = Lt ->
  lex_compare cmp a c = Lt.
Proof.
  revert b c; induction a as [|x a IH]; intros [|y b] [|z c]; simpl;
    try discriminate; auto.
  destruct (cmp x y) eqn:Hxy; try discriminate;
    destruct (cmp y z) eqn:Hyz; try discriminate; intros H1 H2.
  - apply cmp_eq in Hxy, Hyz. subst. rewrite cmp_refl. eauto.
  - apply cmp_eq in Hxy. subst. now rewrite Hyz.
  - apply cmp_eq in Hyz. subst. now rewrite Hxy.
  - now rewrite (cmp_trans _ _ _ Hxy Hyz).
Qed.
End LexTheory.

Lemma Ascii_compare_refl c : Ascii.compare c c = Eq.
Proof. apply N.compare_refl. Qed.

Lemma Ascii_compare_trans a b c :
  Ascii.compare a b = Lt -> Ascii.compare b c = Lt -> Ascii.compare a c = Lt.
Proof.
  unfold Ascii.compare. rewrite !N.compare_lt_iff. apply N.lt_trans.
Qed.

Lemma String_compare_lex s t :
  String.compare s t =
  lex_compare Ascii.compare (list_ascii_of_string s) (list_ascii_of_string t).
Proof.
  revert t; induction s as [|c s IH]; intros [|d t]; simpl; auto.
  rewrite IH. now destruct (Ascii.compare c d).
Qed.

Lemma String_compare_refl s : String.compare s s = Eq.
Proof.
  rewrite String_compare_lex. apply lex_compare_refl, Ascii_compare_refl.
Qed.

Lemma String_compare_trans s t u :
  String.compare s t = Lt -> String.compare t u = Lt -> String.compare s u = Lt.
Proof.
  rewrite !String_compare_lex.
  apply lex_compare_trans.
  - apply Ascii.compare_eq_iff.
  - apply Ascii_compare_refl.
  - apply Ascii_compare_trans.
Qed.

Lemma Path_compare_eq p q : Path_compare p q = Eq -> p = q.
Proof. apply lex_compare_eq, String.compare_eq_iff. Qed.

Lemma Path_compare_antisym p q :
  Path_compare p q = CompOpp (Path_compare q p).
Proof. apply lex_compare_antisym, String.compare_antisym. Qed.

Lemma Path_compare_trans p q r :
  Path_compare p q = Lt -> Path_compare q r = Lt -> Path_compare p r = Lt.
Proof.
  apply lex_compare_trans.
  - apply String.compare_eq_iff.
  - apply String_compare_refl.
  - apply String_compare_trans.
Qed.

Lemma Path_le_compare p q : Path_le p q <-> Path_compare p q <> Gt.
Proof.
  unfold Path_le, Path_lt. rewrite (Path_compare_antisym q p).
  destruct (Path_compare p q); simpl; split; congruence.
Qed.

#[global] Instance Path_le_total : Total Path_le.
Proof.
  intros p q. rewrite !Path_le_compare, (Path_compare_antisym q p).
  destruct (Path_compare p q); simpl; auto; left; congruence.
Qed.

#[global] Instance Path_le_trans : Transitive Path_le.
Proof.
  intros p q r. rewrite !Path_le_compare. intros Hpq Hqr.
  destruct (Path_compare p q) eqn:H1; [| |congruence].
  - apply Path_compare_eq in H1. now subst.
  - destruct (Path_compare q r) eqn:H2; [| |congruence].
    + apply Path_compare_eq in H2. subst. now rewrite H1.
    + now rewrite (Path_compare_trans _ _ _ H1 H2).
Qed.

#[global] Instance Path_le_antisym : AntiSymm (=) Path_le.
Proof.
  intros p q. rewrite !Path_le_compare, (Path_compare_antisym q p).
  intros Hpq Hqp. apply Path_compare_eq.
  destruct (Path_compare p q); simpl in *; congruence.
Qed.

(** ** Sorting *)

Lemma sorted_Permutation l : sorted l ≡ₚ l.
Proof. apply merge_sort_Permutation. Qed.

Lemma sorted_StronglySorted l : StronglySorted Path_le (sorted l).
Proof. apply StronglySorted_merge_sort; apply _. Qed.

(** Any way of putting the paths in ascending order gives the list
    [sorted] gives. *)
Lemma sorted_unique l l' :
  l' ≡ₚ l -> StronglySorted Path_le l' -> l' = sorted l.
Proof.
  intros Hp Hs. apply (StronglySorted_unique Path_le);
    auto using sorted_StronglySorted.
  now rewrite sorted_Permutation.
Qed.

(** The result of sorting depends on the elements only, not on the order
    they arrive in. *)
Lemma sorted_order_irrelevant l1 l2 : l1 ≡ₚ l2 -> sorted l1 = sorted l2.
Proof.
  intros H. apply (StronglySorted_unique Path_le);
    auto using sorted_StronglySorted.
  now rewrite !sorted_Permutation.
Qed.

(** ** The file system *)

Lemma node_nested_ind (P : node -> Prop) :
  P File ->
  (forall es, Forall (fun e => P (snd e)) es -> P (Dir es)) ->
  forall n, P n.
Proof.
  intros HF HD. fix IH 1. intros [|es]; [exact HF|].
  apply HD. induction es as [|[nm c] es IHes]; constructor.
  - apply IH.
  - exact IHes.
Qed.

Lemma entry_Some_elem name es n : entry name es = Some n -> (name, n) ∈ es.
Proof.
  induction es as [|[nm c] es IH]; simpl; [discriminate|].
  destruct (String.eqb_spec nm name) as [->|Hne].
  - intros [= ->]. left.
  - intros H. right. auto.
Qed.

Lemma entry_None_names name es : entry name es = None <-> name ∉ map fst es.
Proof.
  induction es as [|[nm c] es IH]; simpl.
  - split; [intros _; apply not_elem_of_nil | reflexivity].
  - rewrite not_elem_of_cons. destruct (String.eqb_spec nm name) as [->|Hne].
    + split; [discriminate | intros [? _]; congruence].
    + rewrite IH. split; [intros ?; split; congruence | tauto].
Qed.

Lemma entry_elem_Some name es n :
  NoDup (map fst es) -> (name, n) ∈ es -> entry name es = Some n.
Proof.
  induction es as [|[nm c] es IH]; simpl.
  - intros _ H. inversion H.
  - rewrite NoDup_cons. intros [Hnm Hnd] Hin.
    apply elem_of_cons in Hin as [[= -> ->]|Hin].
    + now rewrite String.eqb_refl.
    + destruct (String.eqb_spec nm name) as [->|Hne]; [|auto].
      exfalso. apply Hnm. apply (list_elem_of_fmap_2 fst) in Hin. exact Hin.
Qed.

Lemma distinct_names_Dir es :
  distinct_names (Dir es) = true <->
  NoDup (map fst es) /\ Forall (fun e => distinct_names (snd e) = true) es.
Proof.
  simpl. rewrite andb_true_iff, bool_decide_eq_true, forallb_forall.
  rewrite Forall_forall. setoid_rewrite list_elem_of_In. reflexivity.
Qed.

Lemma stat_app n p q :
  stat n (p ++ q) = match stat n p with Some n' => stat n' q | None => None end.
Proof.
  revert n; induction p as [|c p IH]; intros n; simpl; [reflexivity|].
  destruct n as [|es]; [reflexivity|]. destruct (entry c es); auto.
Qed.

Lemma stat_distinct_names n p n' :
  distinct_names n = true -> stat n p = Some n' -> distinct_names n' = true.
Proof.
  revert n; induction p as [|c p IH]; intros n Hd; simpl.
  - now intros [= <-].
  - destruct n as [|es]; [discriminate|].
    destruct (entry c es) as [m|] eqn:He; [|discriminate].
    apply IH. apply distinct_names_Dir in Hd as [_ Hall].
    apply entry_Some_elem in He. rewrite Forall_forall in Hall.
    apply (Hall _ He).
Qed.

(** Every match lies below the directory searched and ends in the name
    searched for. *)
Lemma select_from_below name n : forall p q,
  q ∈ select_from name n p -> exists rel, q = p ++ rel ++ [name].
Proof.
  induction n as [|es IH] using node_nested_ind; intros p q; simpl.
  - intros H. inversion H.
  - rewrite elem_of_app. intros [H|H].
    + exists []. destruct (entry name es); [|inversion H].
      apply list_elem_of_singleton in H. exact H.
    + apply list_elem_of_In, in_flat_map in H as [e [He Hq]].
      apply list_elem_of_In in He, Hq. rewrite Forall_forall in IH.
      destruct (IH _ He _ _ Hq) as [rel ->].
      exists (fst e :: rel). unfold Path_div. now rewrite <- app_assoc.
Qed.

(** The matches are the paths below [p] that end in [name] and exist. *)
Lemma select_from_spec name n : forall p q,
  distinct_names n = true ->
  q ∈ select_from name n p <->
  exists rel, q = p ++ rel ++ [name] /\ is_Some (stat n (rel ++ [name])).
Proof.
  induction n as [|es IH] using node_nested_ind; intros p q Hd.
  - simpl. split; [intros H; inversion H|].
    intros [[|c rel] [_ [x Hx]]]; discriminate.
  - apply distinct_names_Dir in Hd as [Hnd Hall].
    rewrite Forall_forall in IH, Hall.
    cbn [select_from]. rewrite elem_of_app. split.
    + intros [H|H].
      * exists []. destruct (entry name es) as [m|] eqn:He; [|inversion H].
        apply list_elem_of_singleton in H. split; [exact H|].
        simpl. rewrite He. eauto.
      * apply list_elem_of_In, in_flat_map in H as [e [He Hq]].
        apply list_elem_of_In in He, Hq.
        apply (IH _ He _ _ (Hall _ He)) in Hq as [rel [-> Hs]].
        exists (fst e :: rel). unfold Path_div. rewrite <- app_assoc.
        split; [reflexivity|]. simpl.
        rewrite (entry_elem_Some (fst e) es (snd e)); auto.
        now destruct e.
    + intros [[|c rel] [-> Hs]].
      * left. simpl in Hs. destruct (entry name es); [left|].
        destruct Hs as [x Hx]. discriminate.
      * right. simpl in Hs. destruct (entry c es) as [m|] eqn:He;
          [|destruct Hs; discriminate].
        apply entry_Some_elem in He.
        apply list_elem_of_In, in_flat_map. exists (c, m).
        split; [now apply list_elem_of_In|]. apply list_elem_of_In.
        apply (IH _ He _ _ (Hall _ He)). exists rel. simpl.
        unfold Path_div. rewrite <- app_assoc. auto.
Qed.

(** No path is matched twice. *)
Lemma select_from_NoDup name n : forall p,
  distinct_names n = true -> NoDup (select_from name n p).
Proof.
  induction n as [|es IH] using node_nested_ind; intros p Hd.
  - constructor.
  - apply distinct_names_Dir in Hd as [Hnd Hall].
    cbn [select_from]. apply NoDup_app. split; [|split].
    + destruct (entry name es); [apply NoDup_singleton | constructor].
    + intros q Hq Hin. destruct (entry name es); [|inversion Hq].
      apply list_elem_of_singleton in Hq. subst q.
      apply list_elem_of_In, in_flat_map in Hin as [e [_ Hin]].
      apply list_elem_of_In, select_from_below in Hin as [rel Hrel].
      unfold Path_div in Hrel. rewrite <- app_assoc in Hrel.
      apply app_inv_head in Hrel. simpl in Hrel.
      injection Hrel as _ Hrel. now destruct rel.
    + clear -IH Hnd Hall.
      induction es as [|e es IHes]; simpl; [constructor|].
      apply Forall_cons in IH as [IHe IH], Hall as [He Hall].
      simpl in Hnd. apply NoDup_cons in Hnd as [Hfresh Hnd].
      apply NoDup_app. split; [auto|split; [|auto]].
      intros q Hq Hin.
      apply select_from_below in Hq as [rel Hrel].
      apply list_elem_of_In, in_flat_map in Hin as [e' [He' Hin]].
      apply list_elem_of_In, select_from_below in Hin as [rel' Hrel'].
      rewrite Hrel in Hrel'. unfold Path_div in Hrel'.
      rewrite <- !app_assoc in Hrel'. apply app_inv_head in Hrel'.
      simpl in Hrel'. injection Hrel' as Hfst _.
      apply Hfresh. rewrite Hfst.
      apply list_elem_of_fmap_2, list_elem_of_In, He'.
Qed.

Lemma filter_name_length name es :
  NoDup (map fst es) ->
  length (filter (fun e : string * node => fst e = name) es) =
  match entry name es with Some _ => 1 | None => 0 end.
Proof.
  induction es as [|[nm c] es IH]; simpl; [reflexivity|].
  rewrite NoDup_cons. intros [Hfresh Hnd].
  rewrite filter_cons. simpl.
  destruct (String.eqb_spec nm name) as [->|Hne].
  - rewrite decide_True by reflexivity. simpl. rewrite (IH Hnd).
    apply entry_None_names in Hfresh. now rewrite Hfresh.
  - rewrite decide_False by assumption. auto.
Qed.

(** There are as many matches as entries called [name]. *)
Lemma select_from_length name n : forall p,
  distinct_names n = true ->
  length (select_from name n p) = count_markers name n.
Proof.
  induction n as [|es IH] using node_nested_ind; intros p Hd.
  - reflexivity.
  - apply distinct_names_Dir in Hd as [Hnd Hall].
    cbn [select_from count_markers]. rewrite length_app.
    rewrite (filter_name_length _ _ Hnd). f_equal.
    + now destruct (entry name es).
    + clear -IH Hall. induction es as [|e es IHes]; simpl; [reflexivity|].
      apply Forall_cons in IH as [IHe IH], Hall as [He Hall].
      rewrite length_app, IHe by assumption. f_equal. auto.
Qed.

(** Without any entry called [name], nothing is matched. *)
Lemma select_from_none name n : forall p,
  count_markers name n = 0 -> select_from name n p = [].
Proof.
  induction n as [|es IH] using node_nested_ind; intros p Hc.
  - reflexivity.
  - cbn [select_from count_markers] in *.
    apply Nat.eq_add_0 in Hc as [Hhere Hbelow].
    destruct (entry name es) as [m|] eqn:He.
    + apply entry_Some_elem in He.
      apply length_zero_iff_nil in Hhere.
      assert (Hin : (name, m) ∈ filter (fun e : string * node => fst e = name) es)
        by (apply list_elem_of_filter; auto).
      rewrite Hhere in Hin. inversion Hin.
    + simpl. clear -IH Hbelow.
      induction es as [|e es IHes]; simpl in *; [reflexivity|].
      apply Forall_cons in IH as [IHe IH].
      apply Nat.eq_add_0 in Hbelow as [H1 H2].
      rewrite IHe, IHes by assumption. reflexivity.
Qed.

Lemma exists_true fs p : exists_ fs p = true <-> is_Some (stat fs p).
Proof.
  unfold exists_. destruct (stat fs p); split; eauto; try discriminate.
  intros [x Hx]. discriminate.
Qed.

(** [rglob]: the existing paths at or below [p] whose last component is
    [name]. *)
Lemma rglob_spec fs p name q :
  distinct_names fs = true ->
  q ∈ rglob fs p name <->
  exists rel, q = p ++ rel ++ [name] /\ exists_ fs q = true.
Proof.
  intros Hd. unfold rglob. destruct (stat fs p) as [n|] eqn:Hp.
  - rewrite select_from_spec by eauto using stat_distinct_names.
    split; intros [rel [-> H]]; exists rel; (split; [reflexivity|]).
    + apply exists_true. now rewrite stat_app, Hp.
    + apply exists_true in H. now rewrite stat_app, Hp in H.
  - split; [intros H; inversion H|].
    intros [rel [-> H]]. apply exists_true in H.
    rewrite stat_app, Hp in H. destruct H; discriminate.
Qed.

Lemma rglob_NoDup fs p name :
  distinct_names fs = true -> NoDup (rglob fs p name).
Proof.
  intros Hd. unfold rglob. destruct (stat fs p) eqn:Hp; [|constructor].
  eauto using select_from_NoDup, stat_distinct_names.
Qed.

Lemma rglob_length fs p name :
  distinct_names fs = true ->
  length (rglob fs p name) = markers_below fs p name.
Proof.
  intros Hd. unfold rglob, markers_below.
  destruct (stat fs p) eqn:Hp; [|reflexivity].
  eauto using select_from_length, stat_distinct_names.
Qed.

(** Two file systems in which the same paths exist give the same matches,
    up to the order they are met in. *)
Lemma rglob_enumeration fs fs' p name :
  distinct_names fs = true -> distinct_names fs' = true ->
  (forall q, exists_ fs q = exists_ fs' q) ->
  rglob fs p name ≡ₚ rglob fs' p name.
Proof.
  intros Hd Hd' Hsame. apply NoDup_Permutation; auto using rglob_NoDup.
  intros q. rewrite !rglob_spec by assumption.
  split; intros [rel [-> H]]; exists rel; split; auto; congruence.
Qed.

(** ** Discovery *)

Lemma Path_parent_div f name : Path_parent (Path_div f name) = f.
Proof. apply removelast_last. Qed.

Lemma Path_div_inj name : Inj (=) (=) (fun f => Path_div f name).
Proof. intros f g H. now apply app_inj_tail in H as [? _]. Qed.

Lemma rglob_below fs p name q :
  q ∈ rglob fs p name -> exists rel, q = Path_div (p ++ rel) name.
Proof.
  unfold rglob. destruct (stat fs p); [|intros H; inversion H].
  intros H. apply select_from_below in H as [rel ->].
  exists rel. unfold Path_div. now rewrite app_assoc.
Qed.

Lemma found_folders_markers fs root name :
  map (fun f => Path_div f name) (found_folders fs root name)
  = sorted (rglob fs root name).
Proof.
  unfold found_folders.
  assert (H : Forall (fun q => exists f, q = Path_div f name)
                     (sorted (rglob fs root name))).
  { apply Forall_forall. intros q Hq.
    rewrite sorted_Permutation in Hq.
    apply rglob_below in Hq as [rel ->]. eauto. }
  induction H as [|q l [f ->] _ IH]; simpl; [reflexivity|].
  now rewrite Path_parent_div, IH.
Qed.

Lemma collect_runs_batch fs root d name :
  exists_ fs (Path_div root name) = false ->
  _collect_runs fs root d name = map (_make_run d) (found_folders fs root name).
Proof.
  intros H. unfold _collect_runs, found_folders. rewrite H.
  now rewrite map_map.
Qed.

Lemma found_folders_length fs root name :
  distinct_names fs = true ->
  length (found_folders fs root name) = markers_below fs root name.
Proof.
  intros Hd. unfold found_folders.
  now rewrite length_map, sorted_Permutation, rglob_length.
Qed.

Lemma found_folders_NoDup fs root name :
  distinct_names fs = true -> NoDup (found_folders fs root name).
Proof.
  intros Hd. apply (NoDup_fmap_1 (fun f => Path_div f name)).
  change (NoDup (map (fun f => Path_div f name) (found_folders fs root name))).
  rewrite found_folders_markers, sorted_Permutation.
  now apply rglob_NoDup.
Qed.

Lemma found_folders_spec fs root name f :
  distinct_names fs = true ->
  f ∈ found_folders fs root name <->
  (exists rel, f = root ++ rel) /\ exists_ fs (Path_div f name) = true.
Proof.
  intros Hd.
  assert (Hmark : f ∈ found_folders fs root name <->
                  Path_div f name ∈ rglob fs root name).
  { rewrite <- (sorted_Permutation (rglob fs root name)).
    rewrite <- found_folders_markers.
    symmetry. apply (list_elem_of_fmap_inj (fun f => Path_div f name)
                       (Inj0 := Path_div_inj name)). }
  rewrite Hmark, rglob_spec by assumption.
  split.
  - intros [rel [Hq He]]. split; [|assumption]. exists rel.
    unfold Path_div in Hq. rewrite app_assoc in Hq.
    now apply app_inj_tail in Hq as [? _].
  - intros [[rel ->] He]. exists rel. split; [|assumption].
    unfold Path_div. now rewrite app_assoc.
Qed.

Lemma found_folders_sorted fs root name :
  StronglySorted (fun f g => Path_le (Path_div f name) (Path_div g name))
                 (found_folders fs root name).
Proof.
  pose proof (sorted_StronglySorted (rglob fs root name)) as H.
  rewrite <- found_folders_markers in H.
  induction (found_folders fs root name) as [|f l IH]; [constructor|].
  simpl in H. apply StronglySorted_inv in H as [Hl Hf].
  constructor; [auto|]. now rewrite Forall_map in Hf.
Qed.

(** *** Enumeration order *)

Lemma entry_Permutation name es es' :
  NoDup (map fst es) -> es ≡ₚ es' -> entry name es = entry name es'.
Proof.
  intros Hnd Hp.
  assert (Hnd' : NoDup (map fst es')) by (now rewrite <- Hp).
  destruct (entry name es) as [m|] eqn:He.
  - symmetry. apply entry_elem_Some; [assumption|].
    rewrite <- Hp. now apply entry_Some_elem.
  - symmetry. apply entry_None_names. apply entry_None_names in He.
    now rewrite <- Hp.
Qed.

Lemma reordered_names es es' :
  Forall2 (fun e e' : string * node =>
             fst e = fst e' /\ reordered (snd e) (snd e')) es es' ->
  map fst es = map fst es'.
Proof. induction 1 as [|e e' es es' [H _] _ IH]; simpl; congruence. Qed.

Lemma reordered_entry name es es' :
  Forall2 (fun e e' : string * node =>
             fst e = fst e' /\ reordered (snd e) (snd e')) es es' ->
  match entry name es, entry name es' with
  | Some m, Some m' => reordered m m'
  | None, None => True
  | _, _ => False
  end.
Proof.
  induction 1 as [|[nm m] [nm' m'] es es' [Hnm Hm] _ IH]; simpl; [exact I|].
  simpl in Hnm, Hm. subst nm'. now destruct (String.eqb nm name).
Qed.

Lemma reordered_refl n : reordered n n.
Proof.
  induction n as [|es IH] using node_nested_ind; [constructor|].
  apply (reordered_Dir es es es); [|reflexivity].
  induction IH as [|e es He _ IHes]; constructor; auto.
Qed.

Lemma reordered_entries es es' : es ≡ₚ es' -> reordered (Dir es) (Dir es').
Proof.
  intros Hp. apply (reordered_Dir es es es'); [|assumption].
  clear Hp. induction es as [|e es IH]; constructor;
    auto using reordered_refl.
Qed.

Lemma reordered_below name n n' :
  reordered n n' -> reordered (Dir [(name, n)]) (Dir [(name, n')]).
Proof.
  intros H. apply (reordered_Dir _ [(name, n')] _); [|reflexivity].
  constructor; [split; [reflexivity | exact H] | constructor].
Qed.

(** Reordering keeps every path where it is. *)
Lemma reordered_stat p : forall n n',
  distinct_names n = true -> reordered n n' ->
  match stat n p, stat n' p with
  | Some m, Some m' => reordered m m'
  | None, None => True
  | _, _ => False
  end.
Proof.
  induction p as [|c p IH]; intros n n' Hd Hr; simpl; [exact Hr|].
  destruct Hr as [|es es' es'' Hall Hperm]; [exact I|].
  apply distinct_names_Dir in Hd as [Hnd Hsub].
  assert (Hnd' : NoDup (map fst es'))
    by (now rewrite <- (reordered_names _ _ Hall)).
  rewrite <- (entry_Permutation c es' es'' Hnd' Hperm).
  pose proof (reordered_entry c _ _ Hall) as He.
  destruct (entry c es) as [m|] eqn:Hm, (entry c es') as [m'|];
    try contradiction; [|exact I].
  apply IH; [|assumption].
  apply entry_Some_elem in Hm. rewrite Forall_forall in Hsub.
  apply (Hsub _ Hm).
Qed.

Lemma reordered_exists n n' p :
  distinct_names n = true -> reordered n n' -> exists_ n p = exists_ n' p.
Proof.
  intros Hd Hr. pose proof (reordered_stat p n n' Hd Hr) as H.
  unfold exists_. now destruct (stat n p), (stat n' p).
Qed.

Lemma reordered_distinct_names n : forall n',
  distinct_names n = true -> reordered n n' -> distinct_names n' = true.
Proof.
  induction n as [|es IH] using node_nested_ind; intros n' Hd Hr.
  - now inversion Hr.
  - inversion Hr as [|es0 es' es'' Hall Hperm]; subst.
    apply distinct_names_Dir in Hd as [Hnd Hsub].
    apply distinct_names_Dir. rewrite <- Hperm. split.
    + now rewrite <- (reordered_names _ _ Hall).
    + clear Hperm Hnd Hr. induction Hall as [|e e' es es' [_ He] _ IHall];
        [constructor|].
      apply Forall_cons in IH as [IHe IH], Hsub as [Hde Hsub].
      constructor; eauto.
Qed.

Lemma collect_runs_same_paths fs fs' root d name :
  distinct_names fs = true -> distinct_names fs' = true ->
  (forall q, exists_ fs q = exists_ fs' q) ->
  _collect_runs fs' root d name = _collect_runs fs root d name.
Proof.
  intros Hd Hd' Hsame. unfold _collect_runs. rewrite <- Hsame.
  destruct (exists_ fs (Path_div root name)); [reflexivity|].
  f_equal. symmetry. apply sorted_order_irrelevant.
  now apply rglob_enumeration.
Qed.

(** Discovery does not depend on the order directories enumerate their
    entries in. *)
Lemma Model_init_reordered fs fs' root d :
  distinct_names fs = true -> reordered fs fs' ->
  Model_init fs' root d = Model_init fs root d.
Proof.
  intros Hd Hr. unfold Model_init.
  rewrite (collect_runs_same_paths fs fs');
    eauto using reordered_distinct_names, reordered_exists.
Qed.

Lemma Model_init_runs fs root d :
  Model_init fs root d =
  match _collect_runs fs root d "main.tcl" with
  | [] => inl (FileNotFoundError ("No main.tcl found in: " +:+ Path_str root))
  | rs => inr {| path := root; defaults := d; runs := rs |}
  end.
Proof.
  unfold Model_init. now destruct (_collect_runs fs root d "main.tcl").
Qed.

(** C1, as the code has it: below a root that holds no marker itself,
    construction discovers one Run Unit per entry called [main.tcl] of the
    subtree, [k] units for [k] entries, each at the parent directory of its
    marker and no folder twice. The units come in the order of their marker
    paths [folder/main.tcl] under pathlib's comparison of paths, component by
    component. The Model built is the same however the directories enumerate
    their entries, and more generally for every file system in which the
    same paths exist. *)
Theorem discovery_of_batch fs root d :
  distinct_names fs = true ->
  exists_ fs (Path_div root "main.tcl") = false ->
  exists folders,
    _collect_runs fs root d "main.tcl" = map (_make_run d) folders
    /\ length folders = markers_below fs root "main.tcl"
    /\ NoDup folders
    /\ (forall f, f ∈ folders <->
          (exists rel, f = root ++ rel)
          /\ exists_ fs (Path_div f "main.tcl") = true)
    /\ StronglySorted
         (fun f g => Path_le (Path_div f "main.tcl") (Path_div g "main.tcl"))
         folders
    /\ (folders <> [] ->
        Model_init fs root d =
        inr {| path := root; defaults := d;
               runs := map (_make_run d) folders |})
    /\ (forall fs', reordered fs fs' ->
          Model_init fs' root d = Model_init fs root d)
    /\ (forall fs', distinct_names fs' = true ->
          (forall q, exists_ fs q = exists_ fs' q) ->
          Model_init fs' root d = Model_init fs root d).
Proof.
  intros Hd Hroot. exists (found_folders fs root "main.tcl").
  split; [now apply collect_runs_batch|].
  split; [now apply found_folders_length|].
  split; [now apply found_folders_NoDup|].
  split; [intros f; now apply found_folders_spec|].
  split; [apply found_folders_sorted|].
  split; [|split].
  - intros Hne. rewrite Model_init_runs, collect_runs_batch by assumption.
    destruct (found_folders fs root "main.tcl"); [congruence|reflexivity].
  - intros fs' Hr. now apply Model_init_reordered.
  - intros fs' Hd' Hsame. unfold Model_init.
    now rewrite (collect_runs_same_paths fs fs').
Qed.

Lemma Model_init_single fs root d :
  exists_ fs (Path_div root "main.tcl") = true ->
  Model_init fs root d =
  inr {| path := root; defaults := d; runs := [_make_run d root] |}.
Proof. intros H. unfold Model_init, _collect_runs. now rewrite H. Qed.

(** C2: a root that holds an entry called [main.tcl] is the one and only
    Run Unit, whatever lies below it. *)
Theorem discovery_of_single_run fs root d :
  exists_ fs (Path_div root "main.tcl") = true ->
  Model_init fs root d =
  inr {| path := root; defaults := d; runs := [_make_run d root] |}
  /\ folder_path (_make_run d root) = Path_str root.
Proof.
  intros H. split; [|reflexivity]. now apply Model_init_single.
Qed.

Lemma collect_runs_none fs root d name :
  markers_below fs root name = 0 -> _collect_runs fs root d name = [].
Proof.
  unfold markers_below, _collect_runs, exists_, rglob, Path_div.
  rewrite stat_app. destruct (stat fs root) as [n|]; [|reflexivity].
  intros Hc. rewrite (select_from_none _ _ _ Hc).
  destruct n as [|es]; [reflexivity|]. simpl in *.
  destruct (entry name es) as [m|] eqn:He; [|reflexivity].
  exfalso. apply Nat.eq_add_0 in Hc as [Hc _].
  apply length_zero_iff_nil in Hc. apply entry_Some_elem in He.
  assert (Hin : (name, m) ∈ filter (fun e : string * node => fst e = name) es)
    by (apply list_elem_of_filter; auto).
  rewrite Hc in Hin. inversion Hin.
Qed.

Lemma markers_below_none fs root name :
  distinct_names fs = true ->
  (forall rel, exists_ fs (root ++ rel ++ [name]) = false) ->
  markers_below fs root name = 0.
Proof.
  intros Hd Hnone. rewrite <- rglob_length by assumption.
  destruct (rglob fs root name) as [|q l] eqn:Hl; [reflexivity|].
  assert (Hq : q ∈ rglob fs root name) by (rewrite Hl; left).
  apply rglob_spec in Hq as [rel [-> He]]; [|assumption].
  now rewrite Hnone in He.
Qed.

(** C3: with no entry called [main.tcl] at or below the root, construction
    raises [FileNotFoundError]; and no Model has an empty list of runs. *)
Theorem discovery_of_nothing_fails :
  (forall fs root d,
     markers_below fs root "main.tcl" = 0 ->
     Model_init fs root d =
     inl (FileNotFoundError ("No main.tcl found in: " +:+ Path_str root)))
  /\ (forall fs root d,
        distinct_names fs = true ->
        (forall rel, exists_ fs (root ++ rel ++ ["main.tcl"]) = false) ->
        Model_init fs root d =
        inl (FileNotFoundError ("No main.tcl found in: " +:+ Path_str root)))
  /\ (forall fs root d m, Model_init fs root d = inr m -> runs m <> []).
Proof.
  assert (H0 : forall fs root d,
     markers_below fs root "main.tcl" = 0 ->
     Model_init fs root d =
     inl (FileNotFoundError ("No main.tcl found in: " +:+ Path_str root))).
  { intros fs root d H. rewrite Model_init_runs.
    now rewrite collect_runs_none. }
  split; [exact H0|]. split.
  - intros fs root d Hd Hnone. apply H0. now apply markers_below_none.
  - intros fs root d m. rewrite Model_init_runs.
    destruct (_collect_runs fs root d "main.tcl"); [discriminate|].
    intros [= <-]. discriminate.
Qed.

(** C10: the marker is any entry called [main.tcl], a directory as well as
    a file. A root holding a directory of that name is a single run folder;
    below a root that holds none, a folder holding a directory of that name
    is discovered as a Run Unit. *)
Theorem discovery_counts_directories :
  (forall fs root d es,
     stat fs (Path_div root "main.tcl") = Some (Dir es) ->
     Model_init fs root d =
     inr {| path := root; defaults := d; runs := [_make_run d root] |})
  /\ (forall fs root d rel es,
        distinct_names fs = true ->
        exists_ fs (Path_div root "main.tcl") = false ->
        stat fs (Path_div (root ++ rel) "main.tcl") = Some (Dir es) ->
        exists m,
          Model_init fs root d = inr m
          /\ _make_run d (root ++ rel) ∈ runs m).
Proof.
  split.
  - intros fs root d es H. apply Model_init_single.
    unfold exists_. now rewrite H.
  - intros fs root d rel es Hd Hroot H.
    assert (Hin : root ++ rel ∈ found_folders fs root "main.tcl").
    { apply found_folders_spec; [assumption|]. split; [eauto|].
      unfold exists_. now rewrite H. }
    rewrite Model_init_runs, collect_runs_batch by assumption.
    destruct (found_folders fs root "main.tcl") as [|f l] eqn:Hf;
      [inversion Hin|].
    eexists. split; [reflexivity|]. simpl.
    change (_make_run d (root ++ rel) ∈ map (_make_run d) (f :: l)).
    now apply list_elem_of_fmap_2.
Qed.

(** ** Paths and their strings *)

Lemma split_sep_cons s : exists h t, split_sep s = h :: t.
Proof.
  induction s as [|c s [h [t IH]]]; simpl; [eauto|].
  destruct (Ascii.eqb c "/"); [eauto|]. rewrite IH. eauto.
Qed.

Lemma split_sep_slash s : split_sep ("/" +:+ s) = "" :: split_sep s.
Proof. reflexivity. Qed.

Lemma split_sep_app c s h t :
  forallb (fun ch => negb (Ascii.eqb ch "/")) (list_ascii_of_string c) = true ->
  split_sep s = h :: t ->
  split_sep (c +:+ s) = (c +:+ h) :: t.
Proof.
  intros Hc Hs. induction c as [|ch c IH]; [exact Hs|].
  simpl in Hc. apply andb_true_iff in Hc as [Hch Hc].
  change (String ch c +:+ s) with (String ch (c +:+ s)).
  change (String ch c +:+ h) with (String ch (c +:+ h)).
  simpl. apply negb_true_iff in Hch. rewrite Hch, (IH Hc). reflexivity.
Qed.

Lemma append_empty_r s : s +:+ "" = s.
Proof.
  induction s as [|c s IH]; [reflexivity|].
  change (String c s +:+ "") with (String c (s +:+ "")). now rewrite IH.
Qed.

Lemma proper_name_spec c :
  proper_name c = true ->
  c <> "" /\ c <> "." /\ c <> ".."
  /\ forallb (fun ch => negb (Ascii.eqb ch "/")) (list_ascii_of_string c) = true.
Proof.
  unfold proper_name. rewrite !andb_true_iff, !negb_true_iff.
  rewrite !String.eqb_neq. tauto.
Qed.

Lemma split_sep_components p :
  proper_path p = true ->
  split_sep (foldr (fun c acc => "/" +:+ c +:+ acc) "" p) =
  match p with [] => [""] | _ => "" :: p end.
Proof.
  induction p as [|c p IH]; [reflexivity|].
  simpl. rewrite andb_true_iff. intros [Hc Hp].
  apply proper_name_spec in Hc as (_ & _ & _ & Hc).
  change ("" +:+ c +:+ ?x) with (c +:+ x). f_equal.
  rewrite (split_sep_app c _ "" p Hc).
  - now rewrite append_empty_r.
  - rewrite (IH Hp). now destruct p.
Qed.

Lemma filter_proper p :
  proper_path p = true ->
  filter (fun c : string => c <> "" /\ c <> ".") p = p.
Proof.
  induction p as [|c p IH]; [reflexivity|].
  intros Hp. simpl in Hp. apply andb_true_iff in Hp as [Hc Hp].
  apply proper_name_spec in Hc as (H1 & H2 & _).
  rewrite filter_cons_True by (split; assumption). now rewrite IH.
Qed.

(** Reading back the string of a path gives the path. *)
Lemma Path_of_str_str p : proper_path p = true -> Path_of_str (Path_str p) = p.
Proof.
  intros Hp. unfold Path_of_str, Path_str. destruct p as [|c p]; [reflexivity|].
  rewrite split_sep_components by assumption.
  rewrite filter_cons_False by tauto. now apply filter_proper.
Qed.

Lemma resolve_proper p : proper_path p = true -> resolve p = p.
Proof.
  unfold resolve. intros Hp.
  enough (H : forall acc,
    fold_left (fun acc c => if String.eqb c ".." then removelast acc
                            else acc ++ [c]) p acc = acc ++ p) by apply (H []).
  induction p as [|c p IH]; intros acc; simpl.
  - now rewrite app_nil_r.
  - simpl in Hp. apply andb_true_iff in Hp as [Hc Hp].
    apply proper_name_spec in Hc as (_ & _ & Hc & _).
    apply String.eqb_neq in Hc. rewrite Hc, (IH Hp), <- app_assoc.
    reflexivity.
Qed.

Lemma relative_to_app root rel : relative_to (root ++ rel) root = inr rel.
Proof.
  induction root as [|c root IH]; simpl; [now destruct rel|].
  now rewrite String.eqb_refl.
Qed.

Lemma concat_empty sep p :
  proper_path p = true -> String.concat sep p = "" -> p = [].
Proof.
  destruct p as [|c p]; [reflexivity|]. simpl.
  rewrite andb_true_iff. intros [Hc _].
  apply proper_name_spec in Hc as (Hc & _).
  destruct c as [|ch c]; [congruence|].
  destruct p; discriminate.
Qed.

Lemma proper_path_app p q :
  proper_path (p ++ q) = proper_path p && proper_path q.
Proof. apply forallb_app. Qed.

(** The derived name of the unit built for the folder [root/rel]. *)
Lemma auto_job_name_make_run self d rel :
  proper_path (path self) = true -> proper_path rel = true ->
  _auto_job_name self (_make_run d (path self ++ rel)) =
  inr (match rel with
       | [] => Path_name (path self)
       | _ => String.concat "_" rel
       end).
Proof.
  intros Hroot Hrel. unfold _auto_job_name, Run_path. simpl.
  rewrite Path_of_str_str, resolve_proper, relative_to_app
    by (rewrite proper_path_app, Hroot, Hrel; reflexivity).
  unfold Path_parts. destruct rel as [|c rel]; [reflexivity|].
  destruct (String.eqb_spec (String.concat "_" (c :: rel)) "") as [He|]; auto.
  now apply concat_empty in He.
Qed.

Lemma proper_names_Dir es :
  proper_names (Dir es) = true <->
  Forall (fun e => proper_name (fst e) = true /\ proper_names (snd e) = true) es.
Proof.
  cbn [proper_names]. rewrite forallb_forall, Forall_forall.
  split; intros H e He.
  - apply andb_true_iff, H, list_elem_of_In, He.
  - apply andb_true_iff, H, list_elem_of_In, He.
Qed.

Lemma stat_proper_names n p n' :
  proper_names n = true -> stat n p = Some n' -> proper_names n' = true.
Proof.
  revert n; induction p as [|c p IH]; intros n Hd; simpl.
  - now intros [= <-].
  - destruct n as [|es]; [discriminate|].
    destruct (entry c es) as [m|] eqn:He; [|discriminate].
    apply IH. apply proper_names_Dir in Hd.
    apply entry_Some_elem in He. rewrite Forall_forall in Hd.
    apply (Hd _ He).
Qed.

(** The directories walked down to a match have proper names. *)
Lemma select_from_proper name n : forall p q,
  proper_names n = true ->
  q ∈ select_from name n p ->
  exists rel, q = p ++ rel ++ [name] /\ proper_path rel = true.
Proof.
  induction n as [|es IH] using node_nested_ind; intros p q Hn; simpl.
  - intros H. inversion H.
  - apply proper_names_Dir in Hn. rewrite Forall_forall in IH, Hn.
    rewrite elem_of_app. intros [H|H].
    + exists []. destruct (entry name es); [|inversion H].
      apply list_elem_of_singleton in H. auto.
    + apply list_elem_of_In, in_flat_map in H as [e [He Hq]].
      apply list_elem_of_In in He, Hq.
      destruct (Hn _ He) as [Hname Hsub].
      destruct (IH _ He _ _ Hsub Hq) as [rel [-> Hrel]].
      exists (fst e :: rel). unfold Path_div. rewrite <- app_assoc.
      split; [reflexivity|]. simpl. now rewrite Hname, Hrel.
Qed.

Lemma found_folders_proper fs root name f :
  proper_names fs = true ->
  f ∈ found_folders fs root name ->
  exists rel, f = root ++ rel /\ proper_path rel = true.
Proof.
  intros Hfs Hf. unfold found_folders in Hf.
  apply list_elem_of_fmap in Hf as [q [-> Hq]].
  rewrite sorted_Permutation in Hq. unfold rglob in Hq.
  destruct (stat fs root) as [n|] eqn:Hroot; [|inversion Hq].
  apply select_from_proper in Hq as [rel [-> Hrel]];
    [|eauto using stat_proper_names].
  exists rel. split; [|assumption].
  rewrite app_assoc. apply Path_parent_div.
Qed.

Lemma Model_init_inv fs root d m :
  Model_init fs root d = inr m ->
  path m = root /\ defaults m = d /\ runs m = _collect_runs fs root d "main.tcl".
Proof.
  rewrite Model_init_runs.
  destruct (_collect_runs fs root d "main.tcl"); [discriminate|].
  now intros [= <-].
Qed.

(** Every discovered unit sits at [root/rel] for a path [rel] of proper
    names. *)
Lemma discovered_run fs root d m run :
  proper_names fs = true ->
  Model_init fs root d = inr m ->
  run ∈ runs m ->
  exists rel, proper_path rel = true /\ run = _make_run d (root ++ rel).
Proof.
  intros Hfs Hm Hrun. apply Model_init_inv in Hm as (_ & _ & Hruns).
  rewrite Hruns in Hrun. clear Hruns.
  destruct (exists_ fs (Path_div root "main.tcl")) eqn:Hroot.
  - unfold _collect_runs in Hrun. rewrite Hroot in Hrun.
    apply list_elem_of_singleton in Hrun. exists [].
    now rewrite app_nil_r.
  - rewrite collect_runs_batch in Hrun by assumption.
    apply list_elem_of_fmap in Hrun as [f [-> Hf]].
    apply found_folders_proper in Hf as [rel [-> Hrel]]; eauto.
Qed.

(** C4: the derived job name of a discovered unit is determined by the root
    and the folder of the unit. The folder is [root/rel] for exactly one path
    [rel] of proper names, the unit is the one built for that folder, and
    the name is the components of [rel] joined by underscores, or the name
    of the root directory when the folder is the root. *)
Theorem derived_job_name fs root d m run :
  proper_path root = true ->
  proper_names fs = true ->
  Model_init fs root d = inr m ->
  run ∈ runs m ->
  exists rel,
    proper_path rel = true
    /\ run = _make_run d (root ++ rel)
    /\ folder_path run = Path_str (root ++ rel)
    /\ (forall rel',
          proper_path rel' = true ->
          folder_path run = Path_str (root ++ rel') ->
          rel' = rel)
    /\ _auto_job_name m run =
       inr (match rel with
            | [] => Path_name root
            | _ => String.concat "_" rel
            end).
Proof.
  intros Hroot Hfs Hm Hrun.
  destruct (discovered_run _ _ _ _ _ Hfs Hm Hrun) as [rel [Hrel ->]].
  apply Model_init_inv in Hm as (Hpath & _ & _).
  exists rel. split; [assumption|]. split; [reflexivity|].
  split; [reflexivity|]. split.
  - intros rel' Hrel' Hstr. simpl in Hstr.
    apply (f_equal Path_of_str) in Hstr.
    rewrite !Path_of_str_str in Hstr
      by (rewrite proper_path_app, Hroot; assumption).
    now apply app_inv_head in Hstr.
  - rewrite <- Hpath in *. now apply auto_job_name_make_run.
Qed.

(** The two shapes of the rule, on an explicit folder. *)
Lemma derived_job_name_nested self d a b :
  proper_path (path self) = true -> proper_path [a; b] = true ->
  _auto_job_name self (_make_run d (path self ++ [a; b]))
  = inr (a +:+ "_" +:+ b).
Proof. intros H1 H2. now rewrite auto_job_name_make_run. Qed.

Lemma derived_job_name_root self d :
  proper_path (path self) = true ->
  _auto_job_name self (_make_run d (path self)) = inr (Path_name (path self)).
Proof.
  intros H. pose proof (auto_job_name_make_run self d [] H eq_refl) as Hn.
  now rewrite app_nil_r in Hn.
Qed.

(** ** Orchestration *)

Section OrchestrationTheory.
Variable W : Type.
Variable Run_submit : Run -> kwargs string -> W -> (exn + string) * W.

Lemma after_progress_world self idx run (s : state W) :
  world (after_progress self idx run s) = world s
  /\ calls (after_progress self idx run s) = calls s.
Proof.
  unfold after_progress, _print_run_progress.
  now destruct (verbose (defaults self)).
Qed.

Lemma after_header_world self (s : state W) :
  world (after_header self s) = world s
  /\ calls (after_header self s) = calls s.
Proof.
  unfold after_header, _print_header.
  now destruct (verbose (defaults self)).
Qed.

(** One turn of the loop. *)
Lemma submit_loop_cons self a idx run rs acc s :
  submit_loop Run_submit self a idx (run :: rs) acc s =
  let s1 := after_progress self idx run s in
  match resolved_job_name self (job_name a) run with
  | inl e => (inl e, s1)
  | inr name =>
      match Run_submit run (forward a name) (world s) with
      | (inl e, w') =>
          (inl e, {| world := w'; stdout := stdout s1;
                     calls := calls s ++ [(run, forward a name)] |})
      | (inr job_id, w') =>
          submit_loop Run_submit self a (S idx) rs (acc ++ [job_id])
            {| world := w'; stdout := stdout s1;
               calls := calls s ++ [(run, forward a name)] |}
      end
  end.
Proof.
  cbn [submit_loop]. unfold bind at 1.
  destruct (after_progress_world self idx run s) as [Hw Hc].
  unfold after_progress in *.
  assert (Hp : fst (_print_run_progress W self idx (length (runs self)) run s)
               = inr tt)
    by (unfold _print_run_progress; now destruct (verbose (defaults self))).
  destruct (_print_run_progress W self idx (length (runs self)) run s)
    as [r s1]. simpl in *. subst r.
  unfold bind at 1, lift.
  destruct (resolved_job_name self (job_name a) run) as [e|name];
    [reflexivity|].
  unfold bind at 1, call_submit. rewrite Hw, Hc.
  now destruct (Run_submit run (forward a name) (world s)) as [[e|job_id] w'].
Qed.

(** [submit] is its loop, between a header and a footer that touch
    neither the world nor the trace of calls. *)
Lemma submit_loop_of self a s :
  let r := submit_loop Run_submit self a 1 (runs self) []
             (after_header self s) in
  fst (submit Run_submit self a s) = fst r
  /\ world (snd (submit Run_submit self a s)) = world (snd r)
  /\ calls (snd (submit Run_submit self a s)) = calls (snd r).
Proof.
  unfold submit, after_header, _print_header, _print_footer, bind, print, ret.
  destruct (verbose (defaults self)); simpl;
    match goal with
    | |- context [submit_loop ?f ?m ?a ?i ?rs ?acc ?st] =>
        destruct (submit_loop f m a i rs acc st) as [[e|ids] s1]
    end; simpl; auto.
Qed.

(** Whatever happens, the calls made are those for a first stretch of
    the units, in their order, each with the arguments of [submit] and its
    resolved name; on success the stretch is the whole list. *)
Lemma submit_loop_calls self a rs : forall idx acc s,
  let r := submit_loop Run_submit self a idx rs acc s in
  exists j cs,
    calls (snd r) = calls s ++ cs
    /\ Forall2 (forwarded self a) (take j rs) cs
    /\ (forall ids, fst r = inr ids -> j = length rs).
Proof.
  induction rs as [|run rs IH]; intros idx acc s.
  - exists 0, []. simpl. rewrite app_nil_r. auto.
  - cbv zeta. rewrite submit_loop_cons. cbv zeta.
    destruct (after_progress_world self idx run s) as [Hw Hc].
    destruct (resolved_job_name self (job_name a) run) as [e|name] eqn:Hn.
    + exists 0, []. simpl. rewrite Hc, app_nil_r.
      repeat split; [constructor | discriminate].
    + assert (Hf : forwarded self a run (run, forward a name))
        by (split; eauto).
      destruct (Run_submit run (forward a name) (world s))
        as [[e|job_id] w'].
      * exists 1, [(run, forward a name)]. simpl. rewrite take_0.
        repeat split; [constructor; [exact Hf | constructor] | discriminate].
      * match goal with
        | |- context [submit_loop ?f ?m ?a ?i ?rs ?acc ?st] =>
            destruct (IH i acc st) as [j [cs (Hcs & Hall & Hlen)]]
        end.
        exists (S j), ((run, forward a name) :: cs). simpl in *.
        rewrite Hcs, <- app_assoc.
        repeat split; [constructor; assumption |].
        intros ids Hids. f_equal. eauto.
Qed.

Lemma submit_calls self a s :
  let r := submit Run_submit self a s in
  exists j,
    Forall2 (forwarded self a) (take j (runs self)) (new_calls s (snd r))
    /\ (forall ids, fst r = inr ids -> j = length (runs self)).
Proof.
  cbv zeta. destruct (submit_loop_of self a s) as (Hr & _ & Hc).
  destruct (after_header_world self s) as [_ Hc0].
  destruct (submit_loop_calls self a (runs self) 1 [] (after_header self s))
    as [j [cs (Hcs & Hall & Hlen)]].
  exists j. unfold new_calls. rewrite Hc, Hcs, Hc0, drop_app_length, Hr.
  auto.
Qed.

(** When every submission succeeds. *)
Lemma submit_loop_ok self a rs w ids w' :
  submits_ok Run_submit self a rs w ids w' ->
  forall idx acc s, world s = w ->
    let r := submit_loop Run_submit self a idx rs acc s in
    fst r = inr (acc ++ ids)
    /\ world (snd r) = w'
    /\ exists cs, calls (snd r) = calls s ++ cs
                  /\ Forall2 (forwarded self a) rs cs.
Proof.
  induction 1 as [w|run rs w name job_id w1 ids w2 Hn Hsub Hok IH];
    intros idx acc s Hw; cbv zeta.
  - simpl. rewrite !app_nil_r. repeat split; auto.
    exists []. rewrite app_nil_r. auto.
  - rewrite submit_loop_cons. cbv zeta. rewrite Hn, Hw, Hsub.
    match goal with
    | |- context [submit_loop ?f ?m ?a ?i ?rs ?acc ?st] =>
        destruct (IH i acc st eq_refl) as (Hr & Hw2 & cs & Hcs & Hall)
    end.
    simpl in Hcs. rewrite Hr, Hw2, Hcs. split; [|split; [reflexivity|]].
    + now rewrite <- app_assoc.
    + exists ((run, forward a name) :: cs). rewrite <- app_assoc.
      split; [reflexivity|]. constructor; [|assumption]. split; eauto.
Qed.

(** When the submission of [run] fails after those of [pre] succeeded. *)
Lemma submit_loop_fail self a pre w ids w1 run name e w2 post :
  submits_ok Run_submit self a pre w ids w1 ->
  resolved_job_name self (job_name a) run = inr name ->
  Run_submit run (forward a name) w1 = (inl e, w2) ->
  forall idx acc s, world s = w ->
    let r := submit_loop Run_submit self a idx (pre ++ run :: post) acc s in
    fst r = inl e
    /\ world (snd r) = w2
    /\ exists cs, calls (snd r) = calls s ++ cs ++ [(run, forward a name)]
                  /\ Forall2 (forwarded self a) pre cs.
Proof.
  intros Hok Hname Hfail.
  induction Hok as [w|r0 rs w n0 job_id w1 ids w' Hn Hsub Hok IH];
    intros idx acc s Hw; cbv zeta.
  - simpl app. rewrite submit_loop_cons. cbv zeta.
    rewrite Hname, Hw, Hfail. simpl. repeat split; auto.
    exists []. auto.
  - simpl app. rewrite submit_loop_cons. cbv zeta. rewrite Hn, Hw, Hsub.
    match goal with
    | |- context [submit_loop ?f ?m ?a ?i ?rs ?acc ?st] =>
        destruct (IH Hfail i acc st eq_refl) as (Hr & Hw2 & cs & Hcs & Hall)
    end.
    simpl in Hcs. rewrite Hr, Hw2, Hcs. repeat split; auto.
    exists ((r0, forward a n0) :: cs). rewrite <- app_assoc.
    split; [reflexivity|]. constructor; [|assumption]. split; eauto.
Qed.

Lemma submits_ok_length self a rs w ids w' :
  submits_ok Run_submit self a rs w ids w' -> length ids = length rs.
Proof. induction 1; simpl; auto. Qed.

(** The identifier at position [i] is the one the submission of the
    unit at position [i] returned. *)
Lemma submits_ok_lookup self a rs w ids w' :
  submits_ok Run_submit self a rs w ids w' ->
  forall i run, rs !! i = Some run ->
    exists job_id name wi wi',
      ids !! i = Some job_id
      /\ resolved_job_name self (job_name a) run = inr name
      /\ Run_submit run (forward a name) wi = (inr job_id, wi').
Proof.
  induction 1 as [w|run0 rs w name job_id w1 ids w2 Hn Hsub Hok IH];
    intros i run Hi; [destruct i; discriminate|].
  destruct i as [|i]; simpl in Hi.
  - injection Hi as <-. exists job_id, name, w, w1. auto.
  - destruct (IH i run Hi) as (j & n & wi & wi' & H). exists j, n, wi, wi'.
    exact H.
Qed.

(** C5: when the submissions of all units succeed one after the other,
    [submit] returns their identifiers, as many as there are units and in
    the order of the units; the calls made are one per unit, in that
    order, and the world is the one the last submission left. *)
Theorem submit_returns_identifiers_in_order self a s ids w' :
  submits_ok Run_submit self a (runs self) (world s) ids w' ->
  let r := submit Run_submit self a s in
  fst r = inr ids
  /\ length ids = length (runs self)
  /\ (forall i run, runs self !! i = Some run ->
        exists job_id name wi wi',
          ids !! i = Some job_id
          /\ resolved_job_name self (job_name a) run = inr name
          /\ Run_submit run (forward a name) wi = (inr job_id, wi'))
  /\ world (snd r) = w'
  /\ Forall2 (forwarded self a) (runs self) (new_calls s (snd r)).
Proof.
  intros Hok. cbv zeta.
  destruct (submit_loop_of self a s) as (Hr & Hw & Hc).
  destruct (after_header_world self s) as [Hw0 Hc0].
  destruct (submit_loop_ok _ _ _ _ _ _ Hok 1 [] (after_header self s) Hw0)
    as (Hr1 & Hw1 & cs & Hcs & Hall).
  rewrite Hr, Hw, Hr1, Hw1. unfold new_calls.
  rewrite Hc, Hcs, Hc0, drop_app_length.
  split; [reflexivity|].
  split; [eapply submits_ok_length; eassumption|].
  split; [eapply submits_ok_lookup; eassumption|].
  split; [reflexivity | assumption].
Qed.

(** C6: when the submissions of the units [pre] succeed and that of the
    next unit [run] raises [e], [submit] raises [e]: it returns no list of
    identifiers, the call for [run] is the last one made, and the units
    [post] that follow are not submitted. *)
Theorem submit_failure_propagates self a s pre run post ids w1 name e w2 :
  runs self = pre ++ run :: post ->
  submits_ok Run_submit self a pre (world s) ids w1 ->
  resolved_job_name self (job_name a) run = inr name ->
  Run_submit run (forward a name) w1 = (inl e, w2) ->
  let r := submit Run_submit self a s in
  fst r = inl e
  /\ world (snd r) = w2
  /\ exists cs,
       new_calls s (snd r) = cs ++ [(run, forward a name)]
       /\ Forall2 (forwarded self a) pre cs.
Proof.
  intros Hruns Hok Hname Hfail. cbv zeta.
  destruct (submit_loop_of self a s) as (Hr & Hw & Hc).
  destruct (after_header_world self s) as [Hw0 Hc0].
  destruct (submit_loop_fail _ _ _ _ _ _ _ _ _ _ post Hok Hname Hfail
              1 [] (after_header self s) Hw0)
    as (Hr1 & Hw1 & cs & Hcs & Hall).
  rewrite <- Hruns in *. rewrite Hr, Hw, Hr1, Hw1. unfold new_calls.
  rewrite Hc, Hcs, Hc0, drop_app_length. eauto.
Qed.

(** C7, as the code has it: the job name a unit is submitted with is the
    name the caller gave when that name is not empty; with no name or the
    empty name, it is the derived name of the unit. *)
Theorem forwarded_job_name self a s run kw :
  (run, kw) ∈ new_calls s (snd (submit Run_submit self a s)) ->
  match job_name a with
  | Some name =>
      if String.eqb name "" then _auto_job_name self run = inr (job_name kw)
      else job_name kw = name
  | None => _auto_job_name self run = inr (job_name kw)
  end.
Proof.
  intros Hin. destruct (submit_calls self a s) as [j [Hall _]].
  cbv zeta in Hall.
  apply list_elem_of_lookup in Hin as [i Hi].
  destruct (Forall2_lookup_r _ _ _ _ _ Hall Hi)
    as (run' & _ & Hrun & name & Hname & Hkw).
  simpl in Hrun, Hkw. subst run' kw. simpl.
  unfold resolved_job_name in Hname.
  destruct (job_name a) as [given|]; [|assumption].
  destruct (String.eqb given ""); [assumption | congruence].
Qed.

Lemma forwarded_units self a rs cs :
  Forall2 (forwarded self a) rs cs ->
  map fst cs = rs /\ Forall (fun c => tcl_file (snd c) = tcl_file a) cs.
Proof.
  induction 1 as [|run c rs cs [Hrun (name & _ & Hkw)] _ [IH1 IH2]];
    [split; [reflexivity | constructor]|].
  simpl. rewrite Hrun, IH1. split; [reflexivity|].
  constructor; [|assumption]. now rewrite Hkw.
Qed.

(** C8: discovery looks for [main.tcl] and nothing else, and the units of
    a Model are those found when it was built. Whatever [tcl_file] is
    given to [submit], the units submitted are a first stretch of the
    units of the Model in their order, all of them on success; the name
    is handed to each submission as its [tcl_file], and no other argument
    and no job name depends on it. *)
Theorem tcl_file_only_forwarded :
  (forall fs root d m,
     Model_init fs root d = inr m ->
     runs m = _collect_runs fs root d "main.tcl")
  /\ (forall self a t s,
        let r := submit Run_submit self (set_tcl_file t a) s in
        exists j,
          map fst (new_calls s (snd r)) = take j (runs self)
          /\ Forall (fun c => tcl_file (snd c) = t) (new_calls s (snd r))
          /\ (forall ids, fst r = inr ids -> j = length (runs self)))
  /\ (forall a t name,
        forward (set_tcl_file t a) name = set_tcl_file t (forward a name))
  /\ (forall self a t run,
        resolved_job_name self (job_name (set_tcl_file t a)) run
        = resolved_job_name self (job_name a) run).
Proof.
  split; [intros fs root d m Hm; now apply Model_init_inv in Hm|].
  split; [|split; reflexivity].
  intros self a t s. cbv zeta.
  destruct (submit_calls self (set_tcl_file t a) s) as [j [Hall Hlen]].
  apply forwarded_units in Hall as [Hunits Htcl]. eauto.
Qed.

Lemma submit_loop_verbose b self a rs : forall idx acc s s2,
  world s = world s2 -> calls s = calls s2 ->
  let r1 := submit_loop Run_submit self a idx rs acc s in
  let r2 := submit_loop Run_submit (set_verbose b self) a idx rs acc s2 in
  fst r1 = fst r2
  /\ world (snd r1) = world (snd r2)
  /\ calls (snd r1) = calls (snd r2).
Proof.
  induction rs as [|run rs IH]; intros idx acc s s2 Hw Hc; cbv zeta.
  - simpl. auto.
  - rewrite !submit_loop_cons. cbv zeta.
    destruct (after_progress_world self idx run s) as [Hw1 Hc1].
    destruct (after_progress_world (set_verbose b self) idx run s2)
      as [Hw2 Hc2].
    change (resolved_job_name (set_verbose b self) (job_name a) run)
      with (resolved_job_name self (job_name a) run).
    destruct (resolved_job_name self (job_name a) run) as [e|name].
    + simpl. rewrite Hw1, Hw2, Hc1, Hc2. auto.
    + rewrite <- Hw, <- Hc.
      destruct (Run_submit run (forward a name) (world s))
        as [[e|job_id] w']; [simpl; auto|].
      apply IH; reflexivity.
Qed.

(** C9: with the verbosity flag on or off, [submit] returns the same
    result, makes the same calls to [Run.submit] with the same arguments,
    and leaves the same world. *)
Theorem verbosity_is_not_observable self a s :
  let r1 := submit Run_submit (set_verbose true self) a s in
  let r2 := submit Run_submit (set_verbose false self) a s in
  fst r1 = fst r2
  /\ world (snd r1) = world (snd r2)
  /\ calls (snd r1) = calls (snd r2).
Proof.
  cbv zeta.
  destruct (submit_loop_of (set_verbose true self) a s) as (Hr1 & Hw1 & Hc1).
  destruct (submit_loop_of (set_verbose false self) a s) as (Hr2 & Hw2 & Hc2).
  rewrite Hr1, Hw1, Hc1, Hr2, Hw2, Hc2.
  destruct (after_header_world (set_verbose true self) s) as [Hwa Hca].
  destruct (after_header_world (set_verbose false self) s) as [Hwb Hcb].
  destruct (submit_loop_verbose false (set_verbose true self) a
              (runs self) 1 [] (after_header (set_verbose true self) s)
              (after_header (set_verbose false self) s))
    as (H1 & H2 & H3); [congruence | congruence |].
  auto.
Qed.

(** The flag does gate the reporting: nothing is printed when it is off. *)
Lemma submit_loop_quiet self a rs : forall idx acc s,
  verbose (defaults self) = false ->
  stdout (snd (submit_loop Run_submit self a idx rs acc s)) = stdout s.
Proof.
  induction rs as [|run rs IH]; intros idx acc s Hv; [reflexivity|].
  rewrite submit_loop_cons. cbv zeta.
  assert (Hs : after_progress self idx run s = s)
    by (unfold after_progress, _print_run_progress; now rewrite Hv).
  rewrite Hs.
  destruct (resolved_job_name self (job_name a) run) as [e|name];
    [reflexivity|].
  destruct (Run_submit run (forward a name) (world s)) as [[e|job_id] w'];
    [reflexivity|].
  now rewrite IH.
Qed.

End OrchestrationTheory.

(** The folders of the units do not depend on the defaults the units are
    built with. *)
Lemma discovery_ignores_defaults fs root d d' name :
  map folder_path (_collect_runs fs root d name)
  = map folder_path (_collect_runs fs root d' name).
Proof.
  unfold _collect_runs. destruct (exists_ fs (Path_div root name));
    [reflexivity|]. now rewrite !map_map.
Qed.

(** ** The properties at work *)

Lemma fs_batch_reordered : reordered fs_batch fs_batch_listed.
Proof.
  apply reordered_below.
  apply (reordered_Dir _ [("z", Dir [("main.tcl", File)]);
                          ("x", Dir [("main.tcl", File)]);
                          ("notes.txt", File);
                          ("y", Dir [("out", Dir []); ("main.tcl", File)])] _);
    [|apply perm_swap].
  repeat (constructor; [split; [reflexivity|]|]);
    try apply reordered_refl; [|constructor].
  apply reordered_entries, perm_swap.
Qed.

Lemma fs_batch_listed_Model :
  Model_init fs_batch_listed ["batch"] SlurmDefaults_default
  = Model_init fs_batch ["batch"] SlurmDefaults_default.
Proof. apply Model_init_reordered; [reflexivity | apply fs_batch_reordered]. Qed.

Lemma discovery_of_batch_witness :
  distinct_names fs_batch = true
  /\ exists_ fs_batch (Path_div ["batch"] "main.tcl") = false
  /\ exists folders,
       _collect_runs fs_batch ["batch"] SlurmDefaults_default "main.tcl"
       = map (_make_run SlurmDefaults_default) folders
       /\ length folders = 3
       /\ NoDup folders.
Proof.
  split; [reflexivity|]. split; [reflexivity|].
  destruct (discovery_of_batch fs_batch ["batch"] SlurmDefaults_default
              eq_refl eq_refl) as [folders (H1 & H2 & H3 & _)].
  exists folders. auto.
Defined.

(** C1 as written fails: the units found in [/sweep] come as [/sweep/a/x],
    [/sweep/a-b], while as strings [/sweep/a-b] is below [/sweep/a/x]. *)
Lemma discovery_not_in_string_order :
  ~ discovers_in_string_order fs_sweep ["sweep"] SlurmDefaults_default.
Proof.
  intros H. specialize (H _ eq_refl). simpl in H.
  apply Sorted_inv in H as [_ H]. apply HdRel_inv in H. discriminate H.
Qed.

Lemma discovery_of_single_run_witness :
  exists_ fs_exp (Path_div ["exp"] "main.tcl") = true
  /\ Model_init fs_exp ["exp"] SlurmDefaults_default =
     inr {| path := ["exp"]; defaults := SlurmDefaults_default;
            runs := [_make_run SlurmDefaults_default ["exp"]] |}
  /\ markers_below fs_exp ["exp"] "main.tcl" = 2.
Proof.
  split; [reflexivity|]. split; [|reflexivity].
  apply (discovery_of_single_run fs_exp ["exp"] SlurmDefaults_default).
  reflexivity.
Defined.

Lemma discovery_of_nothing_fails_witness :
  markers_below fs_empty ["void"] "main.tcl" = 0
  /\ Model_init fs_empty ["void"] SlurmDefaults_default =
     inl (FileNotFoundError "No main.tcl found in: /void").
Proof.
  split; [reflexivity|].
  apply (proj1 discovery_of_nothing_fails fs_empty ["void"]
           SlurmDefaults_default).
  reflexivity.
Defined.

Lemma derived_job_name_witness :
  proper_path ["sweep"] = true
  /\ proper_names fs_sweep = true
  /\ Model_init fs_sweep ["sweep"] SlurmDefaults_default
     = inr (model_of fs_sweep ["sweep"])
  /\ _make_run SlurmDefaults_default ["sweep"; "a"; "x"]
     ∈ runs (model_of fs_sweep ["sweep"])
  /\ _auto_job_name (model_of fs_sweep ["sweep"])
       (_make_run SlurmDefaults_default ["sweep"; "a"; "x"])
     = inr "a_x".
Proof.
  assert (Hin : _make_run SlurmDefaults_default ["sweep"; "a"; "x"]
                ∈ runs (model_of fs_sweep ["sweep"]))
    by left.
  split; [reflexivity|]. split; [reflexivity|]. split; [reflexivity|].
  split; [exact Hin|].
  destruct (derived_job_name fs_sweep ["sweep"] SlurmDefaults_default
              (model_of fs_sweep ["sweep"]) _ eq_refl eq_refl eq_refl Hin)
    as (rel & _ & _ & _ & Huniq & Hname).
  rewrite <- (Huniq ["a"; "x"] eq_refl eq_refl) in Hname.
  exact Hname.
Defined.

Lemma discovery_counts_directories_witness :
  stat fs_dirs (Path_div ["d"] "main.tcl") = Some (Dir [])
  /\ Model_init fs_dirs ["d"] SlurmDefaults_default =
     inr {| path := ["d"]; defaults := SlurmDefaults_default;
            runs := [_make_run SlurmDefaults_default ["d"]] |}
  /\ distinct_names fs_dirs = true
  /\ exists_ fs_dirs (Path_div ["e"] "main.tcl") = false
  /\ stat fs_dirs (Path_div (["e"] ++ ["run"]) "main.tcl")
     = Some (Dir [("log", File)])
  /\ exists m,
       Model_init fs_dirs ["e"] SlurmDefaults_default = inr m
       /\ _make_run SlurmDefaults_default (["e"] ++ ["run"]) ∈ runs m.
Proof.
  split; [reflexivity|]. split.
  - apply (proj1 discovery_counts_directories fs_dirs ["d"]
             SlurmDefaults_default []). reflexivity.
  - split; [reflexivity|]. split; [reflexivity|]. split; [reflexivity|].
    apply (proj2 discovery_counts_directories fs_dirs ["e"]
             SlurmDefaults_default ["run"] [("log", File)]); reflexivity.
Defined.

Lemma submit_returns_identifiers_in_order_witness :
  submits_ok (scheduler "") (model_of fs_batch ["batch"]) submit_defaults
    (runs (model_of fs_batch ["batch"])) (world state0)
    ["job-x"; "job-y"; "job-z"] 3
  /\ (let r := submit (scheduler "") (model_of fs_batch ["batch"])
                submit_defaults state0 in
      fst r = inr ["job-x"; "job-y"; "job-z"]
      /\ length ["job-x"; "job-y"; "job-z"]
         = length (runs (model_of fs_batch ["batch"]))
      /\ world (snd r) = 3).
Proof.
  assert (Hok : submits_ok (scheduler "") (model_of fs_batch ["batch"])
                  submit_defaults (runs (model_of fs_batch ["batch"]))
                  (world state0) ["job-x"; "job-y"; "job-z"] 3).
  { repeat (eapply submits_ok_cons; [reflexivity | reflexivity |]).
    apply submits_ok_nil. }
  split; [exact Hok|].
  destruct (submit_returns_identifiers_in_order nat (scheduler "")
              (model_of fs_batch ["batch"]) submit_defaults state0 _ _ Hok)
    as (H1 & H2 & _ & H4 & _).
  auto.
Defined.

Lemma submit_failure_propagates_witness :
  let self := model_of fs_batch ["batch"] in
  let d := SlurmDefaults_default in
  let e := Raised "RuntimeError" "sbatch failed" in
  runs self = [_make_run d ["batch"; "x"]]
              ++ _make_run d ["batch"; "y"] :: [_make_run d ["batch"; "z"]]
  /\ submits_ok (scheduler "/batch/y") self submit_defaults
       [_make_run d ["batch"; "x"]] (world state0) ["job-x"] 1
  /\ resolved_job_name self (job_name submit_defaults)
       (_make_run d ["batch"; "y"]) = inr "y"
  /\ scheduler "/batch/y" (_make_run d ["batch"; "y"])
       (forward submit_defaults "y") 1 = (inl e, 1)
  /\ (let r := submit (scheduler "/batch/y") self submit_defaults state0 in
      fst r = inl e
      /\ world (snd r) = 1
      /\ exists cs,
           new_calls state0 (snd r)
           = cs ++ [(_make_run d ["batch"; "y"], forward submit_defaults "y")]
           /\ Forall2 (forwarded self submit_defaults)
                [_make_run d ["batch"; "x"]] cs).
Proof.
  cbv zeta.
  assert (Hok : submits_ok (scheduler "/batch/y") (model_of fs_batch ["batch"])
                  submit_defaults
                  [_make_run SlurmDefaults_default ["batch"; "x"]]
                  (world state0) ["job-x"] 1).
  { eapply submits_ok_cons; [reflexivity | reflexivity | apply submits_ok_nil]. }
  split; [reflexivity|]. split; [exact Hok|].
  split; [reflexivity|]. split; [reflexivity|].
  exact (submit_failure_propagates nat (scheduler "/batch/y")
           (model_of fs_batch ["batch"]) submit_defaults state0
           [_make_run SlurmDefaults_default ["batch"; "x"]]
           (_make_run SlurmDefaults_default ["batch"; "y"])
           [_make_run SlurmDefaults_default ["batch"; "z"]]
           ["job-x"] 1 "y" (Raised "RuntimeError" "sbatch failed") 1
           eq_refl Hok eq_refl eq_refl).
Defined.

Lemma forwarded_job_name_witness :
  let self := model_of fs_batch ["batch"] in
  let a := set_job_name (Some "tower") submit_defaults in
  let run := _make_run SlurmDefaults_default ["batch"; "x"] in
  let kw := forward a "tower" in
  (run, kw) ∈ new_calls state0 (snd (submit (scheduler "") self a state0))
  /\ job_name kw = "tower".
Proof.
  cbv zeta.
  assert (Hin : (_make_run SlurmDefaults_default ["batch"; "x"],
                 forward (set_job_name (Some "tower") submit_defaults) "tower")
                ∈ new_calls state0
                    (snd (submit (scheduler "") (model_of fs_batch ["batch"])
                            (set_job_name (Some "tower") submit_defaults)
                            state0)))
    by left.
  split; [exact Hin|].
  exact (forwarded_job_name nat (scheduler "") _ _ _ _ _ Hin).
Defined.

(** C7 as written fails: with the empty string for a job name, the unit at
    [/exp] is submitted under its derived name [exp]. *)
Lemma empty_override_not_forwarded :
  ~ override_always_forwarded (scheduler "") (model_of fs_exp ["exp"])
      (set_job_name (Some "") submit_defaults) state0.
Proof.
  intros H.
  specialize (H (_make_run SlurmDefaults_default ["exp"])
                (forward (set_job_name (Some "") submit_defaults) "exp") "").
  assert (Hin : (_make_run SlurmDefaults_default ["exp"],
                 forward (set_job_name (Some "") submit_defaults) "exp")
                ∈ new_calls state0
                    (snd (submit (scheduler "") (model_of fs_exp ["exp"])
                            (set_job_name (Some "") submit_defaults) state0)))
    by left.
  specialize (H Hin eq_refl). discriminate H.
Qed.

Lemma tcl_file_only_forwarded_witness :
  Model_init fs_batch ["batch"] SlurmDefaults_default
  = inr (model_of fs_batch ["batch"])
  /\ runs (model_of fs_batch ["batch"])
     = _collect_runs fs_batch ["batch"] SlurmDefaults_default "main.tcl"
  /\ exists j,
       map fst (new_calls state0
                  (snd (submit (scheduler "") (model_of fs_batch ["batch"])
                          (set_tcl_file "model.tcl" submit_defaults) state0)))
       = take j (runs (model_of fs_batch ["batch"]))
       /\ Forall (fun c => tcl_file (snd c) = "model.tcl")
            (new_calls state0
               (snd (submit (scheduler "") (model_of fs_batch ["batch"])
                       (set_tcl_file "model.tcl" submit_defaults) state0))).
Proof.
  split; [reflexivity|]. split.
  - apply (proj1 (tcl_file_only_forwarded nat (scheduler "")) fs_batch
             ["batch"] SlurmDefaults_default). reflexivity.
  - destruct (proj1 (proj2 (tcl_file_only_forwarded nat (scheduler "")))
                (model_of fs_batch ["batch"]) submit_defaults "model.tcl"
                state0) as [j (H1 & H2 & _)].
    exists j. auto.
Defined.

(** * Further properties of the code *)

(** ** Construction *)

Lemma collect_runs_make_run fs root d name run :
  run ∈ _collect_runs fs root d name -> exists f, run = _make_run d f.
Proof.
  unfold _collect_runs. destruct (exists_ fs (Path_div root name)).
  - intros H. apply list_elem_of_singleton in H. eauto.
  - intros H. apply list_elem_of_fmap in H as [q [-> _]]. eauto.
Qed.

(** X1: a constructed Model keeps the root and the defaults it was given,
    and every unit it holds was built with those defaults: node count,
    node and task limits, verbosity, executable and archive destination. *)
Theorem constructed_units_share_defaults fs root d m :
  Model_init fs root d = inr m ->
  path m = root /\ defaults m = d
  /\ forall run, run ∈ runs m ->
       run_number_of_nodes run = number_of_nodes d
       /\ run_max_nodes run = max_nodes d
       /\ run_max_tasks_per_node run = max_tasks_per_node d
       /\ run_verbose run = verbose d
       /\ run_opensees_exe run = opensees_exe d
       /\ run_archive_destination run = archive_destination d.
Proof.
  intros Hm. apply Model_init_inv in Hm as (Hp & Hd & Hr).
  split; [assumption|]. split; [assumption|].
  intros run Hrun. rewrite Hr in Hrun.
  apply collect_runs_make_run in Hrun as [f ->]. simpl. repeat split.
Qed.

Lemma constructed_units_share_defaults_witness :
  Model_init fs_batch ["batch"] SlurmDefaults_default
  = inr (model_of fs_batch ["batch"])
  /\ path (model_of fs_batch ["batch"]) = ["batch"]
  /\ run_max_nodes (_make_run SlurmDefaults_default ["batch"; "y"]) = 18%Z.
Proof.
  assert (Hin : _make_run SlurmDefaults_default ["batch"; "y"]
                ∈ runs (model_of fs_batch ["batch"]))
    by (right; left).
  split; [reflexivity|].
  destruct (constructed_units_share_defaults fs_batch ["batch"]
              SlurmDefaults_default (model_of fs_batch ["batch"]) eq_refl)
    as (Hp & _ & H).
  split; [exact Hp|]. destruct (H _ Hin) as (_ & H2 & _). exact H2.
Defined.

(** X2: every unit of a constructed Model is a folder at or below the
    root that holds an entry called [main.tcl], in the single-run case as
    in the recursive one. *)
Theorem constructed_units_hold_marker fs root d m run :
  distinct_names fs = true ->
  Model_init fs root d = inr m ->
  run ∈ runs m ->
  exists rel,
    run = _make_run d (root ++ rel)
    /\ exists_ fs (Path_div (root ++ rel) "main.tcl") = true.
Proof.
  intros Hd Hm Hrun. apply Model_init_inv in Hm as (_ & _ & Hr).
  rewrite Hr in Hrun. clear Hr.
  destruct (exists_ fs (Path_div root "main.tcl")) eqn:Hroot.
  - unfold _collect_runs in Hrun. rewrite Hroot in Hrun.
    apply list_elem_of_singleton in Hrun. exists [].
    now rewrite app_nil_r.
  - rewrite collect_runs_batch in Hrun by assumption.
    apply list_elem_of_fmap in Hrun as [f [-> Hf]].
    apply found_folders_spec in Hf as [[rel ->] He]; eauto.
Qed.

Lemma constructed_units_hold_marker_witness :
  distinct_names fs_batch = true
  /\ Model_init fs_batch ["batch"] SlurmDefaults_default
     = inr (model_of fs_batch ["batch"])
  /\ _make_run SlurmDefaults_default ["batch"; "z"]
     ∈ runs (model_of fs_batch ["batch"])
  /\ exists rel,
       _make_run SlurmDefaults_default ["batch"; "z"]
       = _make_run SlurmDefaults_default (["batch"] ++ rel)
       /\ exists_ fs_batch (Path_div (["batch"] ++ rel) "main.tcl") = true.
Proof.
  assert (Hin : _make_run SlurmDefaults_default ["batch"; "z"]
                ∈ runs (model_of fs_batch ["batch"]))
    by (right; right; left).
  split; [reflexivity|]. split; [reflexivity|]. split; [exact Hin|].
  exact (constructed_units_hold_marker fs_batch ["batch"]
           SlurmDefaults_default _ _ eq_refl eq_refl Hin).
Defined.

(** X3: a root that does not exist, or that is a regular file, holds no
    run: construction raises [FileNotFoundError]. *)
Theorem discovery_of_non_directory_fails fs root d :
  stat fs root = None \/ stat fs root = Some File ->
  Model_init fs root d =
  inl (FileNotFoundError ("No main.tcl found in: " +:+ Path_str root)).
Proof.
  intros H. rewrite Model_init_runs, collect_runs_none; [reflexivity|].
  unfold markers_below. now destruct H as [-> | ->].
Qed.

Lemma discovery_of_non_directory_fails_witness :
  (stat fs_batch ["batch"; "notes.txt"] = None
   \/ stat fs_batch ["batch"; "notes.txt"] = Some File)
  /\ Model_init fs_batch ["batch"; "notes.txt"] SlurmDefaults_default
     = inl (FileNotFoundError "No main.tcl found in: /batch/notes.txt")
  /\ Model_init fs_batch ["nowhere"] SlurmDefaults_default
     = inl (FileNotFoundError "No main.tcl found in: /nowhere").
Proof.
  split; [right; reflexivity|]. split.
  - apply (discovery_of_non_directory_fails fs_batch ["batch"; "notes.txt"]).
    right. reflexivity.
  - apply (discovery_of_non_directory_fails fs_batch ["nowhere"]).
    left. reflexivity.
Defined.

(** ** Folders and their strings *)

Lemma Path_str_inj p q :
  proper_path p = true -> proper_path q = true ->
  Path_str p = Path_str q -> p = q.
Proof.
  intros Hp Hq H. rewrite <- (Path_of_str_str p Hp), <- (Path_of_str_str q Hq).
  now rewrite H.
Qed.

(** X4: the folder a unit is built for is read back from the unit as it
    was: the string stored as [folder_path], parsed and resolved, is the
    path again. *)
Theorem folder_path_round_trip d p :
  proper_path p = true ->
  resolve (Path_of_str (Run_path (_make_run d p))) = p.
Proof.
  intros Hp. unfold Run_path. simpl.
  now rewrite Path_of_str_str, resolve_proper.
Qed.

Lemma folder_path_round_trip_witness :
  proper_path ["batch"; "case 1"; "run-3"] = true
  /\ resolve (Path_of_str (Run_path (_make_run SlurmDefaults_default
                                       ["batch"; "case 1"; "run-3"])))
     = ["batch"; "case 1"; "run-3"].
Proof.
  split; [reflexivity|].
  apply (folder_path_round_trip SlurmDefaults_default). reflexivity.
Defined.

(** X5: no two units of a constructed Model have the same folder: a run
    folder is never listed, and so never submitted, twice. *)
Theorem constructed_units_distinct fs root d m :
  distinct_names fs = true ->
  proper_names fs = true ->
  proper_path root = true ->
  Model_init fs root d = inr m ->
  NoDup (map folder_path (runs m)).
Proof.
  intros Hd Hfs Hroot Hm. apply Model_init_inv in Hm as (_ & _ & Hr).
  rewrite Hr. clear Hr.
  destruct (exists_ fs (Path_div root "main.tcl")) eqn:He.
  - unfold _collect_runs. rewrite He. apply NoDup_singleton.
  - rewrite collect_runs_batch, map_map by assumption. simpl.
    apply NoDup_fmap_2_strong; [|now apply found_folders_NoDup].
    intros f g Hf Hg. apply Path_str_inj.
    + apply found_folders_proper in Hf as [rel [-> Hrel]]; [|assumption].
      now rewrite proper_path_app, Hroot, Hrel.
    + apply found_folders_proper in Hg as [rel [-> Hrel]]; [|assumption].
      now rewrite proper_path_app, Hroot, Hrel.
Qed.

Lemma constructed_units_distinct_witness :
  distinct_names fs_batch = true
  /\ proper_names fs_batch = true
  /\ proper_path ["batch"] = true
  /\ Model_init fs_batch ["batch"] SlurmDefaults_default
     = inr (model_of fs_batch ["batch"])
  /\ NoDup (map folder_path (runs (model_of fs_batch ["batch"]))).
Proof.
  repeat (split; [reflexivity|]).
  exact (constructed_units_distinct fs_batch ["batch"] SlurmDefaults_default
           _ eq_refl eq_refl eq_refl eq_refl).
Defined.

(** ** Job names *)

Lemma relative_to_inr p other rel :
  relative_to p other = inr rel -> p = other ++ rel.
Proof.
  revert p; induction other as [|o other IH]; intros [|c p]; simpl;
    try discriminate.
  - now intros [= <-].
  - now intros [= <-].
  - destruct (String.eqb_spec o c) as [->|]; [|discriminate].
    intros H. now rewrite (IH _ H).
Qed.

Lemma relative_to_inl p other e : relative_to p other = inl e -> e = ValueError.
Proof.
  revert p; induction other as [|o other IH]; intros [|c p]; simpl;
    try discriminate.
  - now intros [= <-].
  - destruct (String.eqb o c); [apply IH | now intros [= <-]].
Qed.

(** X6: for a unit whose folder is not at or below the root of the
    Model, the derivation of the job name raises [ValueError]. *)
Theorem auto_job_name_outside_root self d f :
  proper_path f = true ->
  (forall rel, f <> path self ++ rel) ->
  _auto_job_name self (_make_run d f) = inl ValueError.
Proof.
  intros Hf Hout. unfold _auto_job_name, Run_path. simpl.
  rewrite Path_of_str_str, resolve_proper by assumption.
  destruct (relative_to f (path self)) as [e|rel] eqn:Hrel.
  - now rewrite (relative_to_inl _ _ _ Hrel).
  - apply relative_to_inr in Hrel. now destruct (Hout rel).
Qed.

Lemma auto_job_name_outside_root_witness :
  proper_path ["elsewhere"; "y"] = true
  /\ (forall rel, ["elsewhere"; "y"] <> path model_astray ++ rel)
  /\ _auto_job_name model_astray
       (_make_run SlurmDefaults_default ["elsewhere"; "y"]) = inl ValueError.
Proof.
  assert (Hout : forall rel, ["elsewhere"; "y"] <> path model_astray ++ rel)
    by (intros rel H; discriminate H).
  split; [reflexivity|]. split; [exact Hout|].
  exact (auto_job_name_outside_root model_astray SlurmDefaults_default
           ["elsewhere"; "y"] eq_refl Hout).
Defined.

Lemma proper_name_last p :
  proper_path p = true -> p <> [] -> Path_name p <> "".
Proof.
  intros Hp Hne. unfold Path_name.
  destruct (exists_last Hne) as [q [c ->]]. rewrite last_last.
  rewrite proper_path_app in Hp. apply andb_true_iff in Hp as [_ Hc].
  simpl in Hc. apply andb_true_iff in Hc as [Hc _].
  now apply proper_name_spec in Hc as (Hc & _).
Qed.

(** X7: the derived job name of a discovered unit is never empty, unless
    the root of the Model is the anchor [/] itself, whose name is empty. *)
Theorem derived_job_name_nonempty fs root d m run :
  proper_path root = true ->
  root <> [] ->
  proper_names fs = true ->
  Model_init fs root d = inr m ->
  run ∈ runs m ->
  exists name, _auto_job_name m run = inr name /\ name <> "".
Proof.
  intros Hroot Hne Hfs Hm Hrun.
  destruct (discovered_run _ _ _ _ _ Hfs Hm Hrun) as [rel [Hrel ->]].
  apply Model_init_inv in Hm as (Hpath & _ & _). rewrite <- Hpath in *.
  rewrite auto_job_name_make_run by assumption.
  eexists. split; [reflexivity|].
  destruct rel as [|c rel]; [now apply proper_name_last|].
  intros H. now apply concat_empty in H.
Qed.

Lemma derived_job_name_nonempty_witness :
  proper_path ["exp"] = true
  /\ ["exp"] <> []
  /\ proper_names fs_exp = true
  /\ Model_init fs_exp ["exp"] SlurmDefaults_default
     = inr (model_of fs_exp ["exp"])
  /\ _make_run SlurmDefaults_default ["exp"] ∈ runs (model_of fs_exp ["exp"])
  /\ exists name,
       _auto_job_name (model_of fs_exp ["exp"])
         (_make_run SlurmDefaults_default ["exp"]) = inr name
       /\ name <> "".
Proof.
  assert (Hin : _make_run SlurmDefaults_default ["exp"]
                ∈ runs (model_of fs_exp ["exp"])) by left.
  assert (Hne : ["exp"] <> []) by discriminate.
  split; [reflexivity|]. split; [exact Hne|]. split; [reflexivity|].
  split; [reflexivity|]. split; [exact Hin|].
  exact (derived_job_name_nonempty fs_exp ["exp"] SlurmDefaults_default
           _ _ eq_refl Hne eq_refl eq_refl Hin).
Defined.

(** At the anchor the fallback has nothing to offer: the name is empty. *)
Lemma derived_job_name_at_anchor d :
  _auto_job_name {| path := []; defaults := d; runs := [_make_run d []] |}
    (_make_run d []) = inr "".
Proof. reflexivity. Qed.

Lemma names_all_Dir Q es :
  names_all Q (Dir es) = true <->
  Forall (fun e => Q (fst e) = true /\ names_all Q (snd e) = true) es.
Proof.
  cbn [names_all]. rewrite forallb_forall, Forall_forall.
  split; intros H e He.
  - apply andb_true_iff, H, list_elem_of_In, He.
  - apply andb_true_iff, H, list_elem_of_In, He.
Qed.

Lemma stat_names_all Q n p n' :
  names_all Q n = true -> stat n p = Some n' -> names_all Q n' = true.
Proof.
  revert n; induction p as [|c p IH]; intros n Hn; simpl.
  - now intros [= <-].
  - destruct n as [|es]; [discriminate|].
    destruct (entry c es) as [m|] eqn:He; [|discriminate].
    apply IH. apply names_all_Dir in Hn.
    apply entry_Some_elem in He. rewrite Forall_forall in Hn.
    apply (Hn _ He).
Qed.

(** The directories walked down to a match pass every test the entry
    names of the tree pass. *)
Lemma select_from_names Q name n : forall p q,
  names_all Q n = true ->
  q ∈ select_from name n p ->
  exists rel, q = p ++ rel ++ [name] /\ forallb Q rel = true.
Proof.
  induction n as [|es IH] using node_nested_ind; intros p q Hn; simpl.
  - intros H. inversion H.
  - apply names_all_Dir in Hn. rewrite Forall_forall in IH, Hn.
    rewrite elem_of_app. intros [H|H].
    + exists []. destruct (entry name es); [|inversion H].
      apply list_elem_of_singleton in H. auto.
    + apply list_elem_of_In, in_flat_map in H as [e [He Hq]].
      apply list_elem_of_In in He, Hq.
      destruct (Hn _ He) as [Hname Hsub].
      destruct (IH _ He _ _ Hsub Hq) as [rel [-> Hrel]].
      exists (fst e :: rel). unfold Path_div. rewrite <- app_assoc.
      split; [reflexivity|]. simpl. now rewrite Hname, Hrel.
Qed.

Lemma found_folders_names Q fs root name rel :
  names_all Q fs = true ->
  root ++ rel ∈ found_folders fs root name ->
  forallb Q rel = true.
Proof.
  intros Hfs Hf. unfold found_folders in Hf.
  apply list_elem_of_fmap in Hf as [q [Hq Hin]].
  rewrite sorted_Permutation in Hin. unfold rglob in Hin.
  destruct (stat fs root) as [n|] eqn:Hroot; [|inversion Hin].
  apply (select_from_names Q) in Hin as [rel' [-> Hrel]];
    [|eauto using stat_names_all].
  assert (Hpar : Path_parent (root ++ rel' ++ [name]) = root ++ rel')
    by (rewrite app_assoc; apply Path_parent_div).
  rewrite Hpar in Hq. apply app_inv_head in Hq. now subst.
Qed.

Lemma append_cons c s t : String c s +:+ t = String c (s +:+ t).
Proof. reflexivity. Qed.

(** Two strings without underscore, each followed by nothing or by an
    underscore and more, are cut at the same place. *)
Lemma append_underscore_inj c1 c2 t1 t2 :
  underscore_free c1 = true -> underscore_free c2 = true ->
  (t1 = "" \/ exists t, t1 = String "_" t) ->
  (t2 = "" \/ exists t, t2 = String "_" t) ->
  c1 +:+ t1 = c2 +:+ t2 -> c1 = c2 /\ t1 = t2.
Proof.
  unfold underscore_free. revert c2.
  induction c1 as [|a c1 IH]; intros [|b c2] H1 H2 Ht1 Ht2;
    rewrite ?append_cons; simpl in H1, H2.
  - auto.
  - apply andb_true_iff in H2 as [Hb _]. apply negb_true_iff in Hb.
    intros H. change ("" +:+ t1) with t1 in H.
    destruct Ht1 as [-> | [t ->]]; [discriminate|].
    injection H as <- _. discriminate Hb.
  - apply andb_true_iff in H1 as [Ha _]. apply negb_true_iff in Ha.
    intros H. change ("" +:+ t2) with t2 in H.
    destruct Ht2 as [-> | [t ->]]; [discriminate|].
    injection H as -> _. discriminate Ha.
  - apply andb_true_iff in H1 as [_ H1], H2 as [_ H2].
    intros [= -> H]. destruct (IH c2 H1 H2 Ht1 Ht2 H) as [-> ->]. auto.
Qed.

Lemma concat_cons c l :
  String.concat "_" (c :: l) =
  c +:+ match l with [] => "" | _ => String "_" (String.concat "_" l) end.
Proof. destruct l; simpl; [now rewrite append_empty_r | reflexivity]. Qed.

(** Joining with underscores loses nothing when no component has one. *)
Lemma concat_underscore_inj l1 : forall l2,
  proper_path l1 = true -> forallb underscore_free l1 = true ->
  proper_path l2 = true -> forallb underscore_free l2 = true ->
  String.concat "_" l1 = String.concat "_" l2 -> l1 = l2.
Proof.
  induction l1 as [|c1 l1 IH]; intros [|c2 l2] Hp1 Hu1 Hp2 Hu2 H.
  - reflexivity.
  - symmetry in H. now apply concat_empty in H.
  - now apply concat_empty in H.
  - rewrite !concat_cons in H.
    simpl in Hp1, Hu1, Hp2, Hu2.
    apply andb_true_iff in Hp1 as [_ Hp1], Hu1 as [Hc1 Hu1].
    apply andb_true_iff in Hp2 as [_ Hp2], Hu2 as [Hc2 Hu2].
    apply append_underscore_inj in H as [-> Ht]; auto;
      [|destruct l1; eauto | destruct l2; eauto].
    f_equal. destruct l1 as [|d1 l1], l2 as [|d2 l2]; try discriminate;
      [reflexivity|].
    injection Ht as Ht. now apply IH.
Qed.

Lemma derived_job_names_inj fs root d m run1 run2 name :
  distinct_names fs = true ->
  proper_names fs = true ->
  names_all underscore_free fs = true ->
  proper_path root = true ->
  Model_init fs root d = inr m ->
  run1 ∈ runs m -> run2 ∈ runs m ->
  _auto_job_name m run1 = inr name ->
  _auto_job_name m run2 = inr name ->
  run1 = run2.
Proof.
  intros Hd Hfs Hu Hroot Hm H1 H2 Hn1 Hn2.
  apply Model_init_inv in Hm as (Hpath & _ & Hr).
  rewrite Hr in H1, H2. clear Hr.
  destruct (exists_ fs (Path_div root "main.tcl")) eqn:He.
  - unfold _collect_runs in H1, H2. rewrite He in H1, H2.
    apply list_elem_of_singleton in H1, H2. congruence.
  - rewrite collect_runs_batch in H1, H2 by assumption.
    apply list_elem_of_fmap in H1 as [f1 [-> Hf1]].
    apply list_elem_of_fmap in H2 as [f2 [-> Hf2]].
    destruct (found_folders_proper _ _ _ _ Hfs Hf1) as [rel1 [-> Hp1]].
    destruct (found_folders_proper _ _ _ _ Hfs Hf2) as [rel2 [-> Hp2]].
    pose proof (found_folders_names _ _ _ _ _ Hu Hf1) as Hu1.
    pose proof (found_folders_names _ _ _ _ _ Hu Hf2) as Hu2.
    rewrite <- Hpath in *.
    rewrite auto_job_name_make_run in Hn1, Hn2 by assumption.
    assert (Hne : forall rel,
              path m ++ rel ∈ found_folders fs (path m) "main.tcl" ->
              rel <> []).
    { intros rel Hin ->. rewrite app_nil_r in Hin.
      apply found_folders_spec in Hin as [_ Hin]; [|assumption].
      congruence. }
    destruct rel1 as [|c1 rel1]; [now destruct (Hne _ Hf1)|].
    destruct rel2 as [|c2 rel2]; [now destruct (Hne _ Hf2)|].
    f_equal. f_equal. apply concat_underscore_inj; congruence.
Qed.

(** X8: in a tree whose entry names have no underscore, the derivation
    gives different units of a constructed Model different job names. *)
Theorem derived_job_names_distinct fs root d m run1 run2 :
  distinct_names fs = true ->
  proper_names fs = true ->
  names_all underscore_free fs = true ->
  proper_path root = true ->
  Model_init fs root d = inr m ->
  run1 ∈ runs m -> run2 ∈ runs m ->
  run1 <> run2 ->
  _auto_job_name m run1 <> _auto_job_name m run2.
Proof.
  intros Hd Hfs Hu Hroot Hm H1 H2 Hne Heq.
  destruct (discovered_run _ _ _ _ _ Hfs Hm H1) as [rel [Hrel Hrun]].
  assert (Hname : exists name, _auto_job_name m run1 = inr name).
  { pose proof Hm as Hm'. apply Model_init_inv in Hm' as (Hpath & _ & _).
    subst run1. rewrite <- Hpath in *.
    rewrite auto_job_name_make_run by assumption. eauto. }
  destruct Hname as [name Hn1]. apply Hne.
  apply (derived_job_names_inj fs root d m run1 run2 name); congruence.
Qed.

Lemma derived_job_names_distinct_witness :
  let m := model_of fs_batch ["batch"] in
  let run1 := _make_run SlurmDefaults_default ["batch"; "x"] in
  let run2 := _make_run SlurmDefaults_default ["batch"; "y"] in
  distinct_names fs_batch = true
  /\ proper_names fs_batch = true
  /\ names_all underscore_free fs_batch = true
  /\ proper_path ["batch"] = true
  /\ Model_init fs_batch ["batch"] SlurmDefaults_default = inr m
  /\ run1 ∈ runs m /\ run2 ∈ runs m /\ run1 <> run2
  /\ _auto_job_name m run1 <> _auto_job_name m run2.
Proof.
  cbv zeta.
  assert (H1 : _make_run SlurmDefaults_default ["batch"; "x"]
               ∈ runs (model_of fs_batch ["batch"])) by left.
  assert (H2 : _make_run SlurmDefaults_default ["batch"; "y"]
               ∈ runs (model_of fs_batch ["batch"])) by (right; left).
  assert (Hne : _make_run SlurmDefaults_default ["batch"; "x"]
                <> _make_run SlurmDefaults_default ["batch"; "y"])
    by discriminate.
  repeat (split; [reflexivity|]).
  split; [exact H1|]. split; [exact H2|]. split; [exact Hne|].
  exact (derived_job_names_distinct fs_batch ["batch"] SlurmDefaults_default
           _ _ _ eq_refl eq_refl eq_refl eq_refl eq_refl H1 H2 Hne).
Defined.

(** With underscores in the names, two folders can share a derived name. *)
Lemma derived_job_names_collide :
  map (_auto_job_name (model_of fs_underscore ["c"]))
      (runs (model_of fs_underscore ["c"]))
  = [inr "a_b"; inr "a_b"].
Proof. reflexivity. Qed.

(** ** Orchestration *)

Lemma progress_lines_lookup total rs : forall idx i,
  progress_lines total idx rs !! i
  = (fun run => Progress (idx + i) total run) <$> rs !! i.
Proof.
  induction rs as [|run rs IH]; intros idx [|i]; simpl; try reflexivity.
  - now rewrite Nat.add_0_r.
  - rewrite IH. now rewrite Nat.add_succ_r.
Qed.

Lemma progress_lines_app total idx rs rs' :
  progress_lines total idx (rs ++ rs')
  = progress_lines total idx rs
    ++ progress_lines total (idx + length rs) rs'.
Proof.
  revert idx; induction rs as [|run rs IH]; intros idx; simpl.
  - now rewrite Nat.add_0_r.
  - now rewrite IH, Nat.add_succ_r.
Qed.

Section OrchestrationFurther.
Variable W : Type.
Variable Run_submit : Run -> kwargs string -> W -> (exn + string) * W.

Lemma submit_loop_inv self a rs : forall idx acc s ids,
  fst (submit_loop Run_submit self a idx rs acc s) = inr ids ->
  exists ids',
    ids = acc ++ ids'
    /\ submits_ok Run_submit self a rs (world s) ids'
         (world (snd (submit_loop Run_submit self a idx rs acc s))).
Proof.
  induction rs as [|run rs IH]; intros idx acc s ids.
  - simpl. intros [= <-]. exists []. rewrite app_nil_r.
    split; [reflexivity | constructor].
  - rewrite submit_loop_cons. cbv zeta.
    destruct (resolved_job_name self (job_name a) run) as [e|name] eqn:Hn;
      [discriminate|].
    destruct (Run_submit run (forward a name) (world s))
      as [[e|job_id] w'] eqn:Hsub; [discriminate|].
    intros H. apply IH in H as [ids' [-> Hok]].
    exists (job_id :: ids'). rewrite <- app_assoc. split; [reflexivity|].
    econstructor; eassumption.
Qed.

(** X9: [submit] returns a list only when the submission of every unit
    succeeded, one after the other: the list returned holds exactly the
    identifiers those submissions returned, one per unit. *)
Theorem submit_success_inv self a s ids :
  fst (submit Run_submit self a s) = inr ids ->
  submits_ok Run_submit self a (runs self) (world s) ids
    (world (snd (submit Run_submit self a s)))
  /\ length ids = length (runs self).
Proof.
  destruct (submit_loop_of W Run_submit self a s) as (Hr & Hw & _).
  destruct (after_header_world W self s) as [Hw0 _].
  rewrite Hr, Hw. intros H.
  apply submit_loop_inv in H as [ids' [-> Hok]].
  rewrite Hw0 in Hok. split; [exact Hok|].
  eapply submits_ok_length; eassumption.
Qed.

Lemma submit_loop_name_error self a pre w ids w1 run e post :
  submits_ok Run_submit self a pre w ids w1 ->
  resolved_job_name self (job_name a) run = inl e ->
  forall idx acc s, world s = w ->
    let r := submit_loop Run_submit self a idx (pre ++ run :: post) acc s in
    fst r = inl e
    /\ world (snd r) = w1
    /\ exists cs, calls (snd r) = calls s ++ cs
                  /\ Forall2 (forwarded self a) pre cs.
Proof.
  intros Hok Hname.
  induction Hok as [w|r0 rs w n0 job_id w1 ids w' Hn Hsub Hok IH];
    intros idx acc s Hw; cbv zeta.
  - simpl app. rewrite submit_loop_cons. cbv zeta. rewrite Hname.
    destruct (after_progress_world W self idx run s) as [Hw1 Hc1].
    simpl. rewrite Hw1, Hc1. repeat split; auto.
    exists []. rewrite app_nil_r. auto.
  - simpl app. rewrite submit_loop_cons. cbv zeta. rewrite Hn, Hw, Hsub.
    match goal with
    | |- context [submit_loop ?f ?m ?a ?i ?rs ?acc ?st] =>
        destruct (IH i acc st eq_refl) as (Hr & Hw2 & cs & Hcs & Hall)
    end.
    simpl in Hcs. rewrite Hr, Hw2, Hcs. repeat split; auto.
    exists ((r0, forward a n0) :: cs). rewrite <- app_assoc.
    split; [reflexivity|]. constructor; [|assumption]. split; eauto.
Qed.

(** X10: when the job name of a unit cannot be derived, [submit] raises
    the error of the derivation before submitting that unit: the units
    before it have been submitted, the unit itself and those after it have
    not. *)
Theorem submit_name_error_propagates self a s pre run post ids w1 e :
  runs self = pre ++ run :: post ->
  submits_ok Run_submit self a pre (world s) ids w1 ->
  resolved_job_name self (job_name a) run = inl e ->
  let r := submit Run_submit self a s in
  fst r = inl e
  /\ world (snd r) = w1
  /\ Forall2 (forwarded self a) pre (new_calls s (snd r)).
Proof.
  intros Hruns Hok Hname. cbv zeta.
  destruct (submit_loop_of W Run_submit self a s) as (Hr & Hw & Hc).
  destruct (after_header_world W self s) as [Hw0 Hc0].
  destruct (submit_loop_name_error _ _ _ _ _ _ _ _ post Hok Hname
              1 [] (after_header self s) Hw0)
    as (Hr1 & Hw1 & cs & Hcs & Hall).
  rewrite <- Hruns in *. rewrite Hr, Hw, Hr1, Hw1. unfold new_calls.
  rewrite Hc, Hcs, Hc0, drop_app_length. auto.
Qed.

(** X11: with the verbosity flag off, [submit] prints nothing, whether
    it returns or raises. *)
Theorem submit_quiet self a s :
  verbose (defaults self) = false ->
  stdout (snd (submit Run_submit self a s)) = stdout s.
Proof.
  intros Hv. unfold submit, _print_header, _print_footer, bind, ret.
  rewrite Hv.
  pose proof (submit_loop_quiet W Run_submit self a (runs self) 1 [] s Hv)
    as Hq.
  destruct (submit_loop Run_submit self a 1 (runs self) [] s)
    as [[e|ids] s1]; exact Hq.
Qed.

Lemma after_progress_verbose self idx run (s : state W) :
  verbose (defaults self) = true ->
  stdout (after_progress self idx run s)
  = stdout s ++ [Progress idx (length (runs self)) run].
Proof.
  intros Hv. unfold after_progress, _print_run_progress. now rewrite Hv.
Qed.

Lemma submit_loop_report_ok self a rs w ids w' :
  verbose (defaults self) = true ->
  submits_ok Run_submit self a rs w ids w' ->
  forall idx acc s, world s = w ->
    stdout (snd (submit_loop Run_submit self a idx rs acc s))
    = stdout s ++ progress_lines (length (runs self)) idx rs.
Proof.
  intros Hv.
  induction 1 as [w|run rs w name job_id w1 ids w2 Hn Hsub Hok IH];
    intros idx acc s Hw.
  - simpl. now rewrite app_nil_r.
  - rewrite submit_loop_cons. cbv zeta. rewrite Hn, Hw, Hsub.
    rewrite IH by reflexivity. simpl.
    now rewrite after_progress_verbose, <- app_assoc.
Qed.

Lemma submit_loop_report_fail self a pre w ids w1 run e post :
  verbose (defaults self) = true ->
  submits_ok Run_submit self a pre w ids w1 ->
  resolved_job_name self (job_name a) run = inl e
  \/ (exists name w2,
        resolved_job_name self (job_name a) run = inr name
        /\ Run_submit run (forward a name) w1 = (inl e, w2)) ->
  forall idx acc s, world s = w ->
    stdout (snd (submit_loop Run_submit self a idx (pre ++ run :: post) acc s))
    = stdout s ++ progress_lines (length (runs self)) idx (pre ++ [run]).
Proof.
  intros Hv Hok Hfail.
  induction Hok as [w|r0 rs w n0 job_id w1 ids w' Hn Hsub Hok IH];
    intros idx acc s Hw.
  - simpl app. rewrite submit_loop_cons. cbv zeta.
    destruct Hfail as [Hname | (name & w2 & Hname & Hsub)]; rewrite Hname.
    + simpl. now apply after_progress_verbose.
    + rewrite Hw, Hsub. simpl. now apply after_progress_verbose.
  - simpl app. rewrite submit_loop_cons. cbv zeta. rewrite Hn, Hw, Hsub.
    rewrite (IH Hfail) by reflexivity. simpl.
    now rewrite after_progress_verbose, <- app_assoc.
Qed.

Lemma submit_stdout_verbose self a s :
  verbose (defaults self) = true ->
  let s0 := {| world := world s;
               stdout := stdout s ++ [Header (length (runs self))];
               calls := calls s |} in
  let r := submit_loop Run_submit self a 1 (runs self) [] s0 in
  stdout (snd (submit Run_submit self a s))
  = match fst r with
    | inl _ => stdout (snd r)
    | inr ids => stdout (snd r) ++ [Footer (length ids); Slogan]
    end.
Proof.
  intros Hv. cbv zeta.
  unfold submit, _print_header, _print_footer, bind, print, ret.
  rewrite Hv. simpl.
  match goal with
  | |- context [submit_loop ?f ?m ?a ?i ?rs ?acc ?st] =>
      destruct (submit_loop f m a i rs acc st) as [[e|job_ids] s1]
  end; simpl; [reflexivity|].
  now rewrite <- app_assoc.
Qed.

(** X12: with the verbosity flag on and every submission succeeding,
    [submit] prints the header with the number of units, one progress line
    per unit, numbered from 1 in the order of the units, and then the
    footer with the number of jobs submitted. *)
Theorem submit_report self a s ids w' :
  verbose (defaults self) = true ->
  submits_ok Run_submit self a (runs self) (world s) ids w' ->
  let n := length (runs self) in
  stdout (snd (submit Run_submit self a s))
  = stdout s ++ Header n :: progress_lines n 1 (runs self)
    ++ [Footer n; Slogan].
Proof.
  intros Hv Hok. cbv zeta. rewrite submit_stdout_verbose by assumption.
  cbv zeta.
  match goal with
  | |- context [submit_loop ?f ?m ?a ?i ?rs ?acc ?st] =>
      destruct (submit_loop_ok W Run_submit _ _ _ _ _ _ Hok i acc st eq_refl)
        as (Hr & _);
      pose proof (submit_loop_report_ok _ _ _ _ _ _ Hv Hok i acc st eq_refl)
        as Hout
  end.
  rewrite Hr, Hout. simpl.
  rewrite (submits_ok_length W Run_submit _ _ _ _ _ _ Hok).
  now rewrite <- !app_assoc.
Qed.

(** X13: with the verbosity flag on, when a unit fails, in the derivation
    of its job name or in its submission, [submit] has printed the header
    and the progress lines up to and including that of the failing unit,
    and prints no footer. *)
Theorem submit_report_failure self a s pre run post ids w1 e :
  verbose (defaults self) = true ->
  runs self = pre ++ run :: post ->
  submits_ok Run_submit self a pre (world s) ids w1 ->
  resolved_job_name self (job_name a) run = inl e
  \/ (exists name w2,
        resolved_job_name self (job_name a) run = inr name
        /\ Run_submit run (forward a name) w1 = (inl e, w2)) ->
  let n := length (runs self) in
  fst (submit Run_submit self a s) = inl e
  /\ stdout (snd (submit Run_submit self a s))
     = stdout s ++ Header n :: progress_lines n 1 (pre ++ [run]).
Proof.
  intros Hv Hruns Hok Hfail. cbv zeta.
  assert (Hres : fst (submit Run_submit self a s) = inl e).
  { destruct (submit_loop_of W Run_submit self a s) as (Hr & _).
    destruct (after_header_world W self s) as [Hw0 _].
    destruct Hfail as [Hname | (name & w2 & Hname & Hsub)].
    - destruct (submit_loop_name_error _ _ _ _ _ _ _ _ post Hok Hname
                  1 [] (after_header self s) Hw0) as (Hr1 & _).
      rewrite <- Hruns in Hr1. congruence.
    - destruct (submit_loop_fail W Run_submit _ _ _ _ _ _ _ _ _ _ post
                  Hok Hname Hsub 1 [] (after_header self s) Hw0)
        as (Hr1 & _).
      rewrite <- Hruns in Hr1. congruence. }
  split; [exact Hres|].
  rewrite submit_stdout_verbose by assumption. cbv zeta.
  match goal with
  | |- context [submit_loop ?f ?m ?a ?i ?rs ?acc ?st] =>
      pose proof (submit_loop_report_fail _ _ _ _ _ _ _ _ post Hv Hok Hfail
                    i acc st eq_refl) as Hout;
      destruct (submit_loop f m a i rs acc st) as [[e'|job_ids] s1] eqn:Hloop
  end.
  - rewrite <- Hruns in Hout. rewrite Hloop in Hout. simpl in *.
    now rewrite Hout, <- app_assoc.
  - exfalso. destruct (submit_loop_of W Run_submit self a s) as (Hr & _).
    unfold after_header, _print_header in Hr. rewrite Hv in Hr.
    unfold print in Hr. simpl in Hr. rewrite Hloop in Hr. simpl in Hr.
    congruence.
Qed.

(** X14: every call [submit] makes to [Run.submit] is for a unit of the
    Model and carries the arguments of [submit] as they were given: the
    archive, fix and rebuild flags, the node and task counts, the excluded
    nodes, the input file name and the monitoring settings. *)
Theorem submit_forwards_arguments self a s run kw :
  (run, kw) ∈ new_calls s (snd (submit Run_submit self a s)) ->
  run ∈ runs self
  /\ archive kw = archive a /\ fix_ kw = fix_ a /\ rebuild kw = rebuild a
  /\ nodes kw = nodes a /\ ntasks kw = ntasks a
  /\ ntasks_per_node kw = ntasks_per_node a /\ exclude kw = exclude a
  /\ tcl_file kw = tcl_file a /\ monitor_ram kw = monitor_ram a
  /\ monitor_interval kw = monitor_interval a /\ log_file kw = log_file a.
Proof.
  intros Hin. destruct (submit_calls W Run_submit self a s) as [j [Hall _]].
  cbv zeta in Hall.
  apply list_elem_of_lookup in Hin as [i Hi].
  destruct (Forall2_lookup_r _ _ _ _ _ Hall Hi)
    as (run' & Hrun' & Hrun & name & _ & Hkw).
  simpl in Hrun, Hkw. subst run' kw. split.
  - apply (subseteq_take j). eapply list_elem_of_lookup_2, Hrun'.
  - simpl. repeat split.
Qed.

End OrchestrationFurther.

(** ** Construction, then submission *)

Section ConstructThenSubmit.
Variable W : Type.
Variable Run_submit : Run -> kwargs string -> W -> (exn + string) * W.

(** When every job name resolves and the scheduler accepts every job,
    the submissions succeed one after the other. *)
Lemma submits_ok_total self a rs :
  (forall run, run ∈ rs ->
     exists name, resolved_job_name self (job_name a) run = inr name) ->
  (forall run kw w, exists job_id w', Run_submit run kw w = (inr job_id, w')) ->
  forall w, exists ids w', submits_ok Run_submit self a rs w ids w'.
Proof.
  intros Hnames Hsub. induction rs as [|run rs IH]; intros w.
  - exists [], w. constructor.
  - destruct (Hnames run) as [name Hname]; [left|].
    destruct (Hsub run (forward a name) w) as (job_id & w1 & Hrun).
    destruct IH with (w := w1) as (ids & w2 & Hok).
    { intros r Hr. apply Hnames. now right. }
    exists (job_id :: ids), w2. econstructor; eassumption.
Qed.

Lemma resolved_job_name_discovered fs root d m given run :
  proper_path root = true ->
  proper_names fs = true ->
  Model_init fs root d = inr m ->
  run ∈ runs m ->
  exists name, resolved_job_name m given run = inr name.
Proof.
  intros Hroot Hfs Hm Hrun.
  destruct (discovered_run _ _ _ _ _ Hfs Hm Hrun) as [rel [Hrel ->]].
  apply Model_init_inv in Hm as (Hpath & _ & _). rewrite <- Hpath in *.
  unfold resolved_job_name.
  destruct given as [given|];
    [destruct (String.eqb given ""); [|eauto]|];
    rewrite auto_job_name_make_run by assumption; eauto.
Qed.

(** X15: a Model constructed from a file system, submitted to a
    scheduler that accepts every job, never fails: the derivation of the
    job names cannot raise for discovered units, and [submit] returns one
    identifier per unit, that is one for a root that is a run folder and
    otherwise as many as there are markers below the root. *)
Theorem construct_then_submit fs root d m a s :
  distinct_names fs = true ->
  proper_names fs = true ->
  proper_path root = true ->
  Model_init fs root d = inr m ->
  (forall run kw w, exists job_id w', Run_submit run kw w = (inr job_id, w')) ->
  exists ids,
    fst (submit Run_submit m a s) = inr ids
    /\ length ids = length (runs m)
    /\ length ids = if exists_ fs (Path_div root "main.tcl") then 1
                    else markers_below fs root "main.tcl".
Proof.
  intros Hd Hfs Hroot Hm Hsub.
  destruct (submits_ok_total m a (runs m)) with (w := world s)
    as (ids & w' & Hok); [|assumption|].
  { intros run Hrun. eapply resolved_job_name_discovered; eassumption. }
  exists ids.
  destruct (submit_loop_of W Run_submit m a s) as (Hr & _).
  destruct (after_header_world W m s) as [Hw0 _].
  destruct (submit_loop_ok W Run_submit _ _ _ _ _ _ Hok 1 []
              (after_header m s) Hw0) as (Hr1 & _).
  pose proof (submits_ok_length W Run_submit _ _ _ _ _ _ Hok) as Hlen.
  simpl in Hr1. split; [now rewrite Hr|]. split; [assumption|].
  rewrite Hlen. apply Model_init_inv in Hm as (_ & _ & ->).
  destruct (exists_ fs (Path_div root "main.tcl")) eqn:He.
  - unfold _collect_runs. now rewrite He.
  - rewrite collect_runs_batch, length_map by assumption.
    now apply found_folders_length.
Qed.

End ConstructThenSubmit.

(** ** The further properties at work *)

Lemma construct_then_submit_witness :
  distinct_names fs_batch = true
  /\ proper_names fs_batch = true
  /\ proper_path ["batch"] = true
  /\ Model_init fs_batch ["batch"] SlurmDefaults_default
     = inr (model_of fs_batch ["batch"])
  /\ (forall run kw w, exists job_id w',
        scheduler_accepting run kw w = (inr job_id, w'))
  /\ exists ids,
       fst (submit scheduler_accepting (model_of fs_batch ["batch"])
              submit_defaults state0) = inr ids
       /\ length ids = 3.
Proof.
  assert (Hsub : forall run kw w, exists job_id w',
            scheduler_accepting run kw w = (inr job_id, w'))
    by (intros run kw w; eexists _, _; reflexivity).
  repeat (split; [reflexivity|]). split; [exact Hsub|].
  destruct (construct_then_submit nat scheduler_accepting fs_batch ["batch"]
              SlurmDefaults_default (model_of fs_batch ["batch"])
              submit_defaults state0 eq_refl eq_refl eq_refl eq_refl Hsub)
    as [ids (H1 & _ & H3)].
  exists ids. split; [exact H1 | exact H3].
Defined.

Lemma submit_success_inv_witness :
  let r := submit (scheduler "") (model_of fs_batch ["batch"])
             submit_defaults state0 in
  fst r = inr ["job-x"; "job-y"; "job-z"]
  /\ submits_ok (scheduler "") (model_of fs_batch ["batch"]) submit_defaults
       (runs (model_of fs_batch ["batch"])) (world state0)
       ["job-x"; "job-y"; "job-z"] (world (snd r))
  /\ length ["job-x"; "job-y"; "job-z"]
     = length (runs (model_of fs_batch ["batch"])).
Proof.
  cbv zeta. split; [reflexivity|].
  exact (submit_success_inv nat (scheduler "") (model_of fs_batch ["batch"])
           submit_defaults state0 ["job-x"; "job-y"; "job-z"] eq_refl).
Defined.

Lemma submit_name_error_propagates_witness :
  let d := SlurmDefaults_default in
  runs model_astray
  = [_make_run d ["batch"; "x"]]
    ++ _make_run d ["elsewhere"; "y"] :: [_make_run d ["batch"; "z"]]
  /\ submits_ok (scheduler "") model_astray submit_defaults
       [_make_run d ["batch"; "x"]] (world state0) ["job-x"] 1
  /\ resolved_job_name model_astray (job_name submit_defaults)
       (_make_run d ["elsewhere"; "y"]) = inl ValueError
  /\ (let r := submit (scheduler "") model_astray submit_defaults state0 in
      fst r = inl ValueError
      /\ world (snd r) = 1
      /\ Forall2 (forwarded model_astray submit_defaults)
           [_make_run d ["batch"; "x"]] (new_calls state0 (snd r))).
Proof.
  cbv zeta.
  assert (Hok : submits_ok (scheduler "") model_astray submit_defaults
                  [_make_run SlurmDefaults_default ["batch"; "x"]]
                  (world state0) ["job-x"] 1).
  { eapply submits_ok_cons; [reflexivity | reflexivity | apply submits_ok_nil]. }
  split; [reflexivity|]. split; [exact Hok|]. split; [reflexivity|].
  exact (submit_name_error_propagates nat (scheduler "") model_astray
           submit_defaults state0
           [_make_run SlurmDefaults_default ["batch"; "x"]]
           (_make_run SlurmDefaults_default ["elsewhere"; "y"])
           [_make_run SlurmDefaults_default ["batch"; "z"]]
           ["job-x"] 1 ValueError eq_refl Hok eq_refl).
Defined.

Lemma submit_quiet_witness :
  verbose (defaults (model_of fs_batch ["batch"])) = false
  /\ stdout (snd (submit (scheduler "/batch/y") (model_of fs_batch ["batch"])
                    submit_defaults state0)) = stdout state0.
Proof.
  split; [reflexivity|].
  apply (submit_quiet nat (scheduler "/batch/y")). reflexivity.
Defined.

Lemma submit_report_witness :
  let self := set_verbose true (model_of fs_batch ["batch"]) in
  let d := SlurmDefaults_default in
  verbose (defaults self) = true
  /\ submits_ok (scheduler "") self submit_defaults (runs self)
       (world state0) ["job-x"; "job-y"; "job-z"] 3
  /\ stdout (snd (submit (scheduler "") self submit_defaults state0))
     = [Header 3;
        Progress 1 3 (_make_run d ["batch"; "x"]);
        Progress 2 3 (_make_run d ["batch"; "y"]);
        Progress 3 3 (_make_run d ["batch"; "z"]);
        Footer 3; Slogan].
Proof.
  cbv zeta.
  assert (Hok : submits_ok (scheduler "")
                  (set_verbose true (model_of fs_batch ["batch"]))
                  submit_defaults
                  (runs (set_verbose true (model_of fs_batch ["batch"])))
                  (world state0) ["job-x"; "job-y"; "job-z"] 3).
  { repeat (eapply submits_ok_cons; [reflexivity | reflexivity |]).
    apply submits_ok_nil. }
  split; [reflexivity|]. split; [exact Hok|].
  exact (submit_report nat (scheduler "")
           (set_verbose true (model_of fs_batch ["batch"]))
           submit_defaults state0 _ _ eq_refl Hok).
Defined.

Lemma submit_report_failure_witness :
  let self := set_verbose true (model_of fs_batch ["batch"]) in
  let d := SlurmDefaults_default in
  let e := Raised "RuntimeError" "sbatch failed" in
  verbose (defaults self) = true
  /\ runs self = [_make_run d ["batch"; "x"]]
                 ++ _make_run d ["batch"; "y"] :: [_make_run d ["batch"; "z"]]
  /\ submits_ok (scheduler "/batch/y") self submit_defaults
       [_make_run d ["batch"; "x"]] (world state0) ["job-x"] 1
  /\ (exists name w2,
        resolved_job_name self (job_name submit_defaults)
          (_make_run d ["batch"; "y"]) = inr name
        /\ scheduler "/batch/y" (_make_run d ["batch"; "y"])
             (forward submit_defaults name) 1 = (inl e, w2))
  /\ fst (submit (scheduler "/batch/y") self submit_defaults state0) = inl e
  /\ stdout (snd (submit (scheduler "/batch/y") self submit_defaults state0))
     = [Header 3;
        Progress 1 3 (_make_run d ["batch"; "x"]);
        Progress 2 3 (_make_run d ["batch"; "y"])].
Proof.
  cbv zeta.
  assert (Hok : submits_ok (scheduler "/batch/y")
                  (set_verbose true (model_of fs_batch ["batch"]))
                  submit_defaults
                  [_make_run SlurmDefaults_default ["batch"; "x"]]
                  (world state0) ["job-x"] 1).
  { eapply submits_ok_cons; [reflexivity | reflexivity | apply submits_ok_nil]. }
  assert (Hfail : exists name w2,
             resolved_job_name (set_verbose true (model_of fs_batch ["batch"]))
               (job_name submit_defaults)
               (_make_run SlurmDefaults_default ["batch"; "y"]) = inr name
             /\ scheduler "/batch/y"
                  (_make_run SlurmDefaults_default ["batch"; "y"])
                  (forward submit_defaults name) 1
                = (inl (Raised "RuntimeError" "sbatch failed"), w2)).
  { exists "y", 1. split; reflexivity. }
  split; [reflexivity|]. split; [reflexivity|]. split; [exact Hok|].
  split; [exact Hfail|].
  exact (submit_report_failure nat (scheduler "/batch/y")
           (set_verbose true (model_of fs_batch ["batch"]))
           submit_defaults state0
           [_make_run SlurmDefaults_default ["batch"; "x"]]
           (_make_run SlurmDefaults_default ["batch"; "y"])
           [_make_run SlurmDefaults_default ["batch"; "z"]]
           ["job-x"] 1 (Raised "RuntimeError" "sbatch failed")
           eq_refl eq_refl Hok (or_intror Hfail)).
Defined.

Lemma submit_forwards_arguments_witness :
  let self := model_of fs_batch ["batch"] in
  let a := set_tcl_file "model.tcl" submit_defaults in
  let run := _make_run SlurmDefaults_default ["batch"; "z"] in
  let kw := forward a "z" in
  (run, kw) ∈ new_calls state0 (snd (submit (scheduler "") self a state0))
  /\ run ∈ runs self
  /\ tcl_file kw = "model.tcl"
  /\ monitor_interval kw = 30%Z.
Proof.
  cbv zeta.
  assert (Hin : (_make_run SlurmDefaults_default ["batch"; "z"],
                 forward (set_tcl_file "model.tcl" submit_defaults) "z")
                ∈ new_calls state0
                    (snd (submit (scheduler "") (model_of fs_batch ["batch"])
                            (set_tcl_file "model.tcl" submit_defaults)
                            state0)))
    by (right; right; left).
  split; [exact Hin|].
  destruct (submit_forwards_arguments nat (scheduler "") _ _ _ _ _ Hin)
    as (H1 & _ & _ & _ & _ & _ & _ & _ & H9 & _ & H11 & _).
  auto.
Defined.
